(** * Colliding blocks: the discrete-event collision engine of [main.py]

    This development embeds the class [PhysicsEngine] of [src/main.py]
    (constructor, [step], [resolve_wall_collision],
    [resolve_block_collision]) and, of the class [App], the validation
    done by [reset_simulation], the tick of [animate] and the rectangles
    computed by [draw], and proves properties of them.

    Numbers.  The Python code computes with [float], IEEE 754 binary64.
    So does the embedding: every mass, position, velocity and time is a
    primitive [float], [+], [-], [*] and [/] round to nearest even,
    overflow to an infinity and propagate NaN as the hardware does, and
    the comparisons are those of Python ([<], [<=] and [==] are false on
    NaN).  Python raises [ZeroDivisionError] on a float division by
    zero; [truediv] does so too.  The collision counter is a Python
    [int], here a [Z].

    The specification types the same quantities as _reals_.  The module
    [Exact] holds a second embedding of the same methods in which every
    number is an exact rational ([Q]); what is proved there holds of the
    formulas of the code, not of their rounded results, and every
    statement about it says so.

    Effects.  [step] mutates [self] in place and can be left by an
    exception.  This is a state-and-exception monad [M] over the record
    [PhysicsEngine]; the [while] loop takes a fuel argument and
    [OutOfFuel] is the only result that does not correspond to a run of
    the Python code. *)

From Stdlib Require Import Floats QArith Qabs Qround ZArith Bool List Lia Lqa.
Import ListNotations.

Local Open Scope float_scope.

(** ** Numbers *)

(** The tests [a < b] and [a <= b] of Python on two floats, as
    propositions.  Both are false when either side is NaN. *)
Declare Scope python_scope.
Delimit Scope python_scope with py.
Notation "a < b" := (PrimFloat.ltb a b = true) : python_scope.
Notation "a <= b" := (PrimFloat.leb a b = true) : python_scope.
Local Open Scope python_scope.

(** Python's [min(a, b)] and [max(a, b)] on two numbers: the first
    argument, unless the second is strictly smaller, respectively
    strictly larger. *)
Definition py_min (a b : float) : float := if b <? a then b else a.
Definition py_max (a b : float) : float := if a <? b then b else a.

(** ** The engine state (the attributes set by [__init__]) *)

Record PhysicsEngine : Type := mkEngine {
  m1 : float;
  m2 : float;
  x1 : float;
  x2 : float;
  w1 : float;
  w2 : float;
  v1 : float;
  v2 : float;
  collisions : Z;
  finished : bool
}.

Definition set_x1 (q : float) (s : PhysicsEngine) : PhysicsEngine :=
  mkEngine (m1 s) (m2 s) q (x2 s) (w1 s) (w2 s) (v1 s) (v2 s)
           (collisions s) (finished s).
Definition set_x2 (q : float) (s : PhysicsEngine) : PhysicsEngine :=
  mkEngine (m1 s) (m2 s) (x1 s) q (w1 s) (w2 s) (v1 s) (v2 s)
           (collisions s) (finished s).
Definition set_v1 (q : float) (s : PhysicsEngine) : PhysicsEngine :=
  mkEngine (m1 s) (m2 s) (x1 s) (x2 s) (w1 s) (w2 s) q (v2 s)
           (collisions s) (finished s).
Definition set_v2 (q : float) (s : PhysicsEngine) : PhysicsEngine :=
  mkEngine (m1 s) (m2 s) (x1 s) (x2 s) (w1 s) (w2 s) (v1 s) q
           (collisions s) (finished s).
Definition set_collisions (c : Z) (s : PhysicsEngine) : PhysicsEngine :=
  mkEngine (m1 s) (m2 s) (x1 s) (x2 s) (w1 s) (w2 s) (v1 s) (v2 s)
           c (finished s).
Definition set_finished (b : bool) (s : PhysicsEngine) : PhysicsEngine :=
  mkEngine (m1 s) (m2 s) (x1 s) (x2 s) (w1 s) (w2 s) (v1 s) (v2 s)
           (collisions s) b.

(** [PhysicsEngine.__init__(self, mass_large, velocity_large)]. *)
Definition init (mass_large velocity_large : float) : PhysicsEngine :=
  {| m1 := mass_large;
     m2 := 1;
     x1 := 400;
     x2 := 200;
     w1 := 150;
     w2 := 50;
     v1 := velocity_large;
     v2 := 0;
     collisions := 0%Z;
     finished := false |}.

(** ** Exceptions, and the monad of methods on [self] *)

Inductive exn : Type :=
| ZeroDivisionError
| ValueError.

(** How a method call ends: it returns [a] leaving [self] as [s]; it is
    left by exception [e] with [self] as mutated so far; or the model ran
    out of fuel. *)
Inductive outcome (A : Type) : Type :=
| Ret (a : A) (s : PhysicsEngine)
| Raise (e : exn) (s : PhysicsEngine)
| OutOfFuel.
Arguments Ret {A} a s.
Arguments Raise {A} e s.
Arguments OutOfFuel {A}.

Definition M (A : Type) : Type := PhysicsEngine -> outcome A.

Definition ret {A} (a : A) : M A := fun s => Ret a s.

Definition bind {A B} (c : M A) (k : A -> M B) : M B :=
  fun s =>
    match c s with
    | Ret a s' => k a s'
    | Raise e s' => Raise e s'
    | OutOfFuel => OutOfFuel
    end.

Declare Scope engine_scope.
Delimit Scope engine_scope with engine.
Notation "x <- c ;; k" := (bind c (fun x => k))
  (at level 61, c at next level, right associativity) : engine_scope.
Notation "c ;; k" := (bind c (fun _ => k))
  (at level 61, right associativity) : engine_scope.
Local Open Scope engine_scope.

(** Reading an attribute of [self], and assigning to one. *)
Definition read {A} (f : PhysicsEngine -> A) : M A := fun s => Ret (f s) s.
Definition assign (upd : PhysicsEngine -> PhysicsEngine) : M unit :=
  fun s => Ret tt (upd s).
Definition raise {A} (e : exn) : M A := fun s => Raise e s.

(** Python's [a / b] on floats: [ZeroDivisionError] when [b == 0.0]
    (either zero), the rounded quotient otherwise; it overflows to an
    infinity and propagates NaN without raising. *)
Definition truediv (a b : float) : M float :=
  if b =? 0 then raise ZeroDivisionError else ret (a / b).

(** ** The collision resolutions *)

(** Which resolution an iteration of the loop performed, and after which
    [t_next].  The Python code keeps no such record; [step] returns it
    here so that theorems can speak about the events of a call. *)
Inductive event : Type :=
| WallHit (t_next : float)
| BlockHit (t_next : float).

Definition event_time (e : event) : float :=
  match e with
  | WallHit t => t
  | BlockHit t => t
  end.

(** [resolve_wall_collision]. *)
Definition resolve_wall_collision : M unit :=
  v <- read v2 ;;
  assign (set_v2 (v * -1)) ;;
  c <- read collisions ;;
  assign (set_collisions (c + 1)%Z).

(** [resolve_block_collision]. *)
Definition resolve_block_collision : M unit :=
  u1 <- read v1 ;;
  u2 <- read v2 ;;
  m1_ <- read m1 ;;
  m2_ <- read m2 ;;
  v1_ <- truediv ((m1_ - m2_) * u1 + 2 * m2_ * u2) (m1_ + m2_) ;;
  v2_ <- truediv ((m2_ - m1_) * u2 + 2 * m1_ * u1) (m1_ + m2_) ;;
  assign (set_v1 v1_) ;;
  assign (set_v2 v2_) ;;
  c <- read collisions ;;
  assign (set_collisions (c + 1)%Z).

(** ** [step] *)

(** Lines 33-37: the time until the small block reaches the wall. *)
Definition time_to_wall : M float :=
  v2_ <- read v2 ;;
  if v2_ <? 0 then
    x2_ <- read x2 ;;
    truediv x2_ (abs v2_)
  else
    ret infinity.

(** Lines 41-47: the time until the large block reaches the small one. *)
Definition time_to_block : M float :=
  v1_ <- read v1 ;;
  v2_ <- read v2 ;;
  if v1_ <? v2_ then
    x1_ <- read x1 ;;
    x2_ <- read x2 ;;
    w2_ <- read w2 ;;
    let distance_between := x1_ - (x2_ + w2_) in
    let closing_speed := v2_ - v1_ in
    truediv distance_between closing_speed
  else
    ret infinity.

(** [self.x1 += self.v1 * t; self.x2 += self.v2 * t]. *)
Definition move (t : float) : M unit :=
  x1_ <- read x1 ;;
  v1_ <- read v1 ;;
  assign (set_x1 (x1_ + v1_ * t)) ;;
  x2_ <- read x2 ;;
  v2_ <- read v2 ;;
  assign (set_x2 (x2_ + v2_ * t)).

(** One iteration of the [while] loop (lines 32-68).  It returns the new
    [time_remaining] and the event it resolved, if any. *)
Definition loop_body (time_remaining : float) : M (float * list event) :=
  t_wall <- time_to_wall ;;
  t_block <- time_to_block ;;
  let t_next := py_min t_wall t_block in
  if t_next <=? time_remaining then
    move t_next ;;
    let time_remaining := time_remaining - t_next in
    if t_wall <? t_block then
      resolve_wall_collision ;;
      ret (time_remaining, [WallHit t_next])
    else
      resolve_block_collision ;;
      ret (time_remaining, [BlockHit t_next])
  else
    move time_remaining ;;
    ret (0, []).

(** [while time_remaining > 0: ...], with fuel for the iterations. *)
Fixpoint while_loop (fuel : nat) (time_remaining : float) : M (list event) :=
  if 0 <? time_remaining then
    match fuel with
    | O => fun _ => OutOfFuel
    | S fuel' =>
        r <- loop_body time_remaining ;;
        rest <- while_loop fuel' (fst r) ;;
        ret (snd r ++ rest)
    end
  else
    ret [].

(** The terminal test of line 73. *)
Definition terminal (s : PhysicsEngine) : bool :=
  (0 <=? v1 s) && (0 <=? v2 s) && (v2 s <=? v1 s).

(** [PhysicsEngine.step(self, dt)]. *)
Definition step (fuel : nat) (dt : float) : M (list event) :=
  log <- while_loop fuel dt ;;
  done <- read terminal ;;
  (if done then assign (set_finished true) else ret tt) ;;
  ret log.

(** ** Construction through the GUI: [App.reset_simulation] *)

(** The body of the [try] (lines 152-159) on the two parsed inputs: the
    mass check and the construction of a fresh engine. *)
Definition create (mass velocity : float) : exn + PhysicsEngine :=
  if mass <=? 0 then inl ValueError
  else inr (init mass velocity).

(** The part of [App] that [reset_simulation] touches: the engine it
    holds and whether the error dialog was shown. *)
Record App : Type := mkApp {
  engine : option PhysicsEngine;
  error_shown : bool
}.

(** [reset_simulation] with its [except ValueError] handler: on failure
    the engine held before is kept. *)
Definition reset_simulation (mass velocity : float) (app : App) : App :=
  match create mass velocity with
  | inr e => {| engine := Some e; error_shown := false |}
  | inl _ => {| engine := engine app; error_shown := true |}
  end.

(** ** The states the methods leave *)

(** The state after [move t]. *)
Definition moved (t : float) (s : PhysicsEngine) : PhysicsEngine :=
  set_x2 (x2 s + v2 s * t) (set_x1 (x1 s + v1 s * t) s).

(** The state after [resolve_wall_collision]. *)
Definition bounced (s : PhysicsEngine) : PhysicsEngine :=
  set_collisions (collisions s + 1)%Z (set_v2 (v2 s * -1) s).

(** The state after a [resolve_block_collision] that returns. *)
Definition collided (s : PhysicsEngine) : PhysicsEngine :=
  set_collisions (collisions s + 1)%Z
    (set_v2 (((m2 s - m1 s) * v2 s + 2 * m1 s * v1 s) / (m1 s + m2 s))
       (set_v1 (((m1 s - m2 s) * v1 s + 2 * m2 s * v2 s) / (m1 s + m2 s)) s)).

(** The state [step] leaves when its loop has left [s]. *)
Definition mark_finished (s : PhysicsEngine) : PhysicsEngine :=
  if terminal s then set_finished true s else s.

(** The two event times of lines 33-47, as the guards give them. *)
Definition wall_time (s : PhysicsEngine) : float :=
  if v2 s <? 0 then x2 s / abs (v2 s) else infinity.
Definition block_time (s : PhysicsEngine) : float :=
  if v1 s <? v2 s then (x1 s - (x2 s + w2 s)) / (v2 s - v1 s)
  else infinity.

(** What an iteration of the loop started with [rem] in state [s] comes
    to, once the two event times are known: the three tests of lines 52
    and 60 and of the division in [resolve_block_collision]. *)
Definition after_iteration (rem : float) (s : PhysicsEngine)
  : outcome (float * list event) :=
  let t_next := py_min (wall_time s) (block_time s) in
  if t_next <=? rem then
    if wall_time s <? block_time s then
      Ret (rem - t_next, [WallHit t_next]) (bounced (moved t_next s))
    else if m1 s + m2 s =? 0 then
      Raise ZeroDivisionError (moved t_next s)
    else
      Ret (rem - t_next, [BlockHit t_next]) (collided (moved t_next s))
  else
    Ret (0, []) (moved rem s).

(** ** Outcomes and sequences of calls *)

(** The state in which a call ended, by return or by exception. *)
Definition left_in {A} (o : outcome A) : option PhysicsEngine :=
  match o with
  | Ret _ s => Some s
  | Raise _ s => Some s
  | OutOfFuel => None
  end.

(** An outcome that leaves [self], if at all, in a state satisfying [I]. *)
Definition leaves {A} (I : PhysicsEngine -> Prop) (o : outcome A) : Prop :=
  match o with
  | Ret _ s => I s
  | Raise _ s => I s
  | OutOfFuel => True
  end.

(** The specification types [dt] as a real number.  Every float but
    [float('inf')] is treated like one here: a NaN or a negative [dt]
    just skips the loop. *)
Definition real_dt (dt : float) : Prop := dt <> infinity.

(** [later_by ok s s']: some sequence of calls of [step] that return,
    each with a [dt] satisfying [ok], leads from [s] to [s']. *)
Inductive later_by (ok : float -> Prop)
  : PhysicsEngine -> PhysicsEngine -> Prop :=
| later_now s : later_by ok s s
| later_call s fuel dt log s1 s' :
    ok dt -> step fuel dt s = Ret log s1 -> later_by ok s1 s' ->
    later_by ok s s'.

Definition later : PhysicsEngine -> PhysicsEngine -> Prop :=
  later_by real_dt.

(** The states an application can observe: those [create] builds, and
    those any returning call of [step] leaves. *)
Inductive reachable : PhysicsEngine -> Prop :=
| reach_create mass velocity s :
    create mass velocity = inr s -> reachable s
| reach_step s fuel dt log s' :
    reachable s -> real_dt dt -> step fuel dt s = Ret log s' ->
    reachable s'.

(** A call [step dt] is left by an exception, or it returns and [self] is
    what it was. *)
Definition rejects_or_leaves_unchanged
  (fuel : nat) (dt : float) (s : PhysicsEngine) : Prop :=
  (exists e s', step fuel dt s = Raise e s') \/
  (exists log, step fuel dt s = Ret log s).

(** [evolves s0 s]: what holds between the state [s0] in which a call of
    [step] starts and any state [s] it goes through: masses and widths
    are the same, the collision count has not decreased, and [finished],
    once true, is still true. *)
Definition evolves (s0 s : PhysicsEngine) : Prop :=
  m1 s = m1 s0 /\ m2 s = m2 s0 /\ w1 s = w1 s0 /\ w2 s = w2 s0 /\
  (collisions s0 <= collisions s)%Z /\
  (finished s0 = true -> finished s = true).

(** What every state an application can observe satisfies (see
    [reachable_sound]): the mass passed the check of [reset_simulation],
    the constants of [__init__] are in place, the collision count is not
    negative, and [finished] is only true when the terminal test holds. *)
Definition sound (s : PhysicsEngine) : Prop :=
  (m1 s <=? 0) = false /\ m2 s = 1 /\ w1 s = 150 /\ w2 s = 50 /\
  (0 <= collisions s)%Z /\
  (finished s = true -> terminal s = true).

(** [s] and [s'] agree on every attribute but [finished]. *)
Definition same_motion (s s' : PhysicsEngine) : Prop :=
  m1 s = m1 s' /\ m2 s = m2 s' /\
  x1 s = x1 s' /\ x2 s = x2 s' /\
  w1 s = w1 s' /\ w2 s = w2 s' /\
  v1 s = v1 s' /\ v2 s = v2 s' /\
  collisions s = collisions s'.

(** Two calls end the same way: both return, with the same events, or
    both raise the same exception, in states with the same motion; or
    both run out of fuel. *)
Definition same_outcome {A} (o o' : outcome A) : Prop :=
  match o, o' with
  | Ret a s, Ret a' s' => a = a' /\ same_motion s s'
  | Raise e s, Raise e' s' => e = e' /\ same_motion s s'
  | OutOfFuel, OutOfFuel => True
  | _, _ => False
  end.

(** ** The exact value of a float *)

(** The rational number a finite float stands for; 0 for the infinities
    and NaN. *)
Definition value (x : float) : Q :=
  match Prim2SF x with
  | S754_finite s m e =>
      (if s then -1 else 1)%Q * inject_Z (Zpos m) * Qpower 2 e
  | _ => 0%Q
  end.

(** ** Some states *)

(** The default of the GUI: mass 100, velocity -100. *)
Definition fresh : PhysicsEngine := init 100 (-100).

(** A fresh engine whose large block moves away from the wall, and the
    state [step(0)] leaves from it. *)
Definition departing : PhysicsEngine := init 100 5.
Definition coasting : PhysicsEngine := set_finished true departing.

(** The large block moving left, the small one moving right. *)
Definition closing : PhysicsEngine := set_v2 30 fresh.

(** The small block at rest at the wall, the large one at rest too. *)
Definition resting_at_wall : PhysicsEngine := set_x2 0 (init 100 0).

(** The small block at the wall, moving into it. *)
Definition at_wall : PhysicsEngine := set_v2 (-1) resting_at_wall.

(** Both blocks moving left so that the small one reaches the wall at
    the very time the large one reaches it: both after time 1. *)
Definition tie_state : PhysicsEngine :=
  set_v2 (-100) (set_x2 100 (set_x1 250 (init 100 (-200)))).

(** ** The animation: [App.animate] *)

(** How a callback of the application ends. *)
Inductive app_outcome : Type :=
| AppRet (app : App)
| AppRaise (e : exn) (app : App)
| AppOutOfFuel.

(** The time step of [animate] (line 210): [1/60.0], rounded. *)
Definition frame_dt : float := 1 / 60.

(** [App.animate], one tick: the engine, when there is one, is stepped by
    [frame_dt].  (Drawing reads the state only; rescheduling is
    [animate_n].) *)
Definition animate (fuel : nat) (app : App) : app_outcome :=
  match engine app with
  | Some e =>
      match step fuel frame_dt e with
      | Ret _ e' =>
          AppRet {| engine := Some e'; error_shown := error_shown app |}
      | Raise x e' =>
          AppRaise x {| engine := Some e'; error_shown := error_shown app |}
      | OutOfFuel => AppOutOfFuel
      end
  | None => AppRet app
  end.

(** [k] ticks: [animate] reschedules itself with [root.after] as its last
    statement, so an exception in a tick ends the animation. *)
Fixpoint animate_n (fuel : nat) (k : nat) (app : App) : app_outcome :=
  match k with
  | O => AppRet app
  | S k' =>
      match animate fuel app with
      | AppRet app' => animate_n fuel k' app'
      | o => o
      end
  end.

(** The application as [App.__init__] leaves it before its first
    [reset_simulation]: no engine. *)
Definition no_engine : App := {| engine := None; error_shown := false |}.

(** ** The rectangles of [App.draw] *)

(** An axis-parallel rectangle as [create_rectangle] takes it. *)
Record rectangle : Type := mkRectangle {
  rect_x0 : float;
  rect_y0 : float;
  rect_x1 : float;
  rect_y1 : float
}.

(** [self.ground_y] (line 142). *)
Definition ground_y : float := 400.

Section Drawing.
(** [math.log10] is taken as a parameter. *)
Variable log10 : float -> float.

(** Lines 191-192: the drawn size of the large block. *)
Definition size1 (e : PhysicsEngine) : float :=
  let size_scale := if 1 <? m1 e then log10 (m1 e) * 20 else 20 in
  py_max 80 (py_min 250 (50 + size_scale)).

(** Lines 179-182: the rectangle of the small block. *)
Definition small_rectangle (e : PhysicsEngine) : rectangle :=
  let x2_draw := 20 + x2 e in
  let y2_draw := ground_y - w2 e in
  mkRectangle x2_draw y2_draw (x2_draw + w2 e) ground_y.

(** Lines 186-196: the rectangle of the large block. *)
Definition large_rectangle (e : PhysicsEngine) : rectangle :=
  let x1_draw := 20 + x1 e in
  let y1_draw := ground_y - size1 e in
  mkRectangle x1_draw y1_draw (x1_draw + size1 e) ground_y.
End Drawing.

(** ** Event logs *)

Definition is_wall (e : event) : bool :=
  match e with
  | WallHit _ => true
  | BlockHit _ => false
  end.

(** No wall hit of the log is directly followed by another wall hit. *)
Fixpoint walls_apart (log : list event) : bool :=
  match log with
  | [] => true
  | e1 :: rest =>
      match rest with
      | [] => true
      | e2 :: _ => negb (is_wall e1 && is_wall e2) && walls_apart rest
      end
  end.

(** The log does not start with a wall hit. *)
Definition starts_without_wall (log : list event) : Prop :=
  match log with
  | [] => True
  | e :: _ => is_wall e = false
  end.

(** ** More states *)

(** Two blocks of mass 1: the large one arrives at velocity -100. *)
Definition equal_masses : PhysicsEngine := init 1 (-100).

(** The events and the final state of [step(10)] on it, computed. *)
Definition equal_masses_log : list event :=
  Eval vm_compute in
    match step 5 10 equal_masses with
    | Ret log _ => log
    | _ => []
    end.
Definition equal_masses_final : PhysicsEngine :=
  Eval vm_compute in
    match step 5 10 equal_masses with
    | Ret _ s => s
    | _ => equal_masses
    end.

(** A fresh engine of mass 0.33333333333333348 at velocity -100, and a
    time step of 11258999068426242 seconds. *)
Definition light : PhysicsEngine := init 0x1.5555555555558p-2 (-100).
Definition long_dt : float := 0x1.4000000000001p+53.

(** A fresh engine of mass 16.460543091903347 at velocity -57. *)
Definition uneven : PhysicsEngine := init 0x1.075e626ee1fa4p+4 (-57).

(** A block of mass 1000000 in contact with the small one: the large
    block moves right at 9/7 (rounded), the small one faster by one unit
    in the last place. *)
Definition grazing : PhysicsEngine :=
  set_v2 0x1.4924924924926p+0
    (set_v1 0x1.4924924924925p+0 (set_x1 250 (init 1000000 0))).

(** A block of mass 2^53 + 2 in contact with the small one: the large
    block moves right at 1.9 (rounded), the small one faster by one unit
    in the last place. *)
Definition pressing : PhysicsEngine :=
  set_v2 0x1.e666666666667p+0
    (set_v1 0x1.e666666666666p+0
       (set_x1 250 (init 0x1.0000000000001p+53 0))).

(** * The same methods in exact arithmetic

    The embedding above with every [float] replaced by a rational
    number: [+], [-], [*] and [/] are the exact field operations and
    [float('inf')] is a separate value ([Inf] of type [time]).  Nothing
    here rounds, overflows or is NaN. *)

Module Exact.

Local Open Scope Q_scope.

(** ** Numbers *)

(** [a < b] on rationals, as a boolean.  ([Qle_bool] is [a <= b].) *)
Definition Qlt_bool (x y : Q) : bool :=
  (Qnum x * QDen y <? Qnum y * QDen x)%Z.

(** A time to the next event: a finite number or [float('inf')]. *)
Inductive time : Type :=
| Fin (t : Q)
| Inf.

(** [a < b] where either side may be [float('inf')]. *)
Definition time_ltb (a b : time) : bool :=
  match a, b with
  | Fin x, Fin y => Qlt_bool x y
  | Fin _, Inf => true
  | Inf, _ => false
  end.

(** Python's [min(a, b)]: the first argument unless the second is
    strictly smaller. *)
Definition time_min (a b : time) : time :=
  if time_ltb b a then b else a.

(** [t_next <= time_remaining] against a finite [time_remaining]: when the
    test succeeds [t_next] is finite, and its value is returned. *)
Definition within (t_next : time) (time_remaining : Q) : option Q :=
  match t_next with
  | Fin t => if Qle_bool t time_remaining then Some t else None
  | Inf => None
  end.

(** ** The engine state (the attributes set by [__init__]) *)

Record PhysicsEngine : Type := mkEngine {
  m1 : Q;
  m2 : Q;
  x1 : Q;
  x2 : Q;
  w1 : Q;
  w2 : Q;
  v1 : Q;
  v2 : Q;
  collisions : Z;
  finished : bool
}.

Definition set_x1 (q : Q) (s : PhysicsEngine) : PhysicsEngine :=
  mkEngine (m1 s) (m2 s) q (x2 s) (w1 s) (w2 s) (v1 s) (v2 s)
           (collisions s) (finished s).
Definition set_x2 (q : Q) (s : PhysicsEngine) : PhysicsEngine :=
  mkEngine (m1 s) (m2 s) (x1 s) q (w1 s) (w2 s) (v1 s) (v2 s)
           (collisions s) (finished s).
Definition set_v1 (q : Q) (s : PhysicsEngine) : PhysicsEngine :=
  mkEngine (m1 s) (m2 s) (x1 s) (x2 s) (w1 s) (w2 s) q (v2 s)
           (collisions s) (finished s).
Definition set_v2 (q : Q) (s : PhysicsEngine) : PhysicsEngine :=
  mkEngine (m1 s) (m2 s) (x1 s) (x2 s) (w1 s) (w2 s) (v1 s) q
           (collisions s) (finished s).
Definition set_collisions (c : Z) (s : PhysicsEngine) : PhysicsEngine :=
  mkEngine (m1 s) (m2 s) (x1 s) (x2 s) (w1 s) (w2 s) (v1 s) (v2 s)
           c (finished s).
Definition set_finished (b : bool) (s : PhysicsEngine) : PhysicsEngine :=
  mkEngine (m1 s) (m2 s) (x1 s) (x2 s) (w1 s) (w2 s) (v1 s) (v2 s)
           (collisions s) b.

(** [PhysicsEngine.__init__(self, mass_large, velocity_large)]. *)
Definition init (mass_large velocity_large : Q) : PhysicsEngine :=
  {| m1 := mass_large;
     m2 := 1;
     x1 := 400;
     x2 := 200;
     w1 := 150;
     w2 := 50;
     v1 := velocity_large;
     v2 := 0;
     collisions := 0%Z;
     finished := false |}.

(** ** Exceptions, and the monad of methods on [self] *)

Inductive exn : Type :=
| ZeroDivisionError
| ValueError.

(** How a method call ends: it returns [a] leaving [self] as [s]; it is
    left by exception [e] with [self] as mutated so far; or the model ran
    out of fuel. *)
Inductive outcome (A : Type) : Type :=
| Ret (a : A) (s : PhysicsEngine)
| Raise (e : exn) (s : PhysicsEngine)
| OutOfFuel.
Arguments Ret {A} a s.
Arguments Raise {A} e s.
Arguments OutOfFuel {A}.

Definition M (A : Type) : Type := PhysicsEngine -> outcome A.

Definition ret {A} (a : A) : M A := fun s => Ret a s.

Definition bind {A B} (c : M A) (k : A -> M B) : M B :=
  fun s =>
    match c s with
    | Ret a s' => k a s'
    | Raise e s' => Raise e s'
    | OutOfFuel => OutOfFuel
    end.

Declare Scope exact_scope.
Delimit Scope exact_scope with exact.
Notation "x <- c ;; k" := (bind c (fun x => k))
  (at level 61, c at next level, right associativity) : exact_scope.
Notation "c ;; k" := (bind c (fun _ => k))
  (at level 61, right associativity) : exact_scope.
Local Open Scope exact_scope.

(** Reading an attribute of [self], and assigning to one. *)
Definition read {A} (f : PhysicsEngine -> A) : M A := fun s => Ret (f s) s.
Definition assign (upd : PhysicsEngine -> PhysicsEngine) : M unit :=
  fun s => Ret tt (upd s).
Definition raise {A} (e : exn) : M A := fun s => Raise e s.

(** [a / b], exactly; [ZeroDivisionError] on a zero divisor. *)
Definition truediv (a b : Q) : M Q :=
  if Qeq_bool b 0 then raise ZeroDivisionError else ret (a / b).

(** ** The collision resolutions *)

(** Which resolution an iteration of the loop performed, and after which
    [t_next].  The Python code keeps no such record; [step] returns it
    here so that theorems can speak about the events of a call. *)
Inductive event : Type :=
| WallHit (t_next : Q)
| BlockHit (t_next : Q).

Definition event_time (e : event) : Q :=
  match e with
  | WallHit t => t
  | BlockHit t => t
  end.

(** [resolve_wall_collision]. *)
Definition resolve_wall_collision : M unit :=
  v <- read v2 ;;
  assign (set_v2 (v * -(1))) ;;
  c <- read collisions ;;
  assign (set_collisions (c + 1)%Z).

(** [resolve_block_collision]. *)
Definition resolve_block_collision : M unit :=
  u1 <- read v1 ;;
  u2 <- read v2 ;;
  m1_ <- read m1 ;;
  m2_ <- read m2 ;;
  v1_ <- truediv ((m1_ - m2_) * u1 + 2 * m2_ * u2) (m1_ + m2_) ;;
  v2_ <- truediv ((m2_ - m1_) * u2 + 2 * m1_ * u1) (m1_ + m2_) ;;
  assign (set_v1 v1_) ;;
  assign (set_v2 v2_) ;;
  c <- read collisions ;;
  assign (set_collisions (c + 1)%Z).

(** ** [step] *)

(** Lines 33-37: the time until the small block reaches the wall. *)
Definition time_to_wall : M time :=
  v2_ <- read v2 ;;
  if Qlt_bool v2_ 0 then
    x2_ <- read x2 ;;
    t <- truediv x2_ (Qabs v2_) ;;
    ret (Fin t)
  else
    ret Inf.

(** Lines 41-47: the time until the large block reaches the small one. *)
Definition time_to_block : M time :=
  v1_ <- read v1 ;;
  v2_ <- read v2 ;;
  if Qlt_bool v1_ v2_ then
    x1_ <- read x1 ;;
    x2_ <- read x2 ;;
    w2_ <- read w2 ;;
    let distance_between := x1_ - (x2_ + w2_) in
    let closing_speed := v2_ - v1_ in
    t <- truediv distance_between closing_speed ;;
    ret (Fin t)
  else
    ret Inf.

(** [self.x1 += self.v1 * t; self.x2 += self.v2 * t]. *)
Definition move (t : Q) : M unit :=
  x1_ <- read x1 ;;
  v1_ <- read v1 ;;
  assign (set_x1 (x1_ + v1_ * t)) ;;
  x2_ <- read x2 ;;
  v2_ <- read v2 ;;
  assign (set_x2 (x2_ + v2_ * t)).

(** One iteration of the [while] loop (lines 32-68).  It returns the new
    [time_remaining] and the event it resolved, if any. *)
Definition loop_body (time_remaining : Q) : M (Q * list event) :=
  t_wall <- time_to_wall ;;
  t_block <- time_to_block ;;
  let t_next := time_min t_wall t_block in
  match within t_next time_remaining with
  | Some t =>
      move t ;;
      let time_remaining := time_remaining - t in
      if time_ltb t_wall t_block then
        resolve_wall_collision ;;
        ret (time_remaining, [WallHit t])
      else
        resolve_block_collision ;;
        ret (time_remaining, [BlockHit t])
  | None =>
      move time_remaining ;;
      ret (0, [])
  end.

(** [while time_remaining > 0: ...], with fuel for the iterations. *)
Fixpoint while_loop (fuel : nat) (time_remaining : Q) : M (list event) :=
  if Qlt_bool 0 time_remaining then
    match fuel with
    | O => fun _ => OutOfFuel
    | S fuel' =>
        r <- loop_body time_remaining ;;
        rest <- while_loop fuel' (fst r) ;;
        ret (snd r ++ rest)
    end
  else
    ret [].

(** The terminal test of line 73. *)
Definition terminal (s : PhysicsEngine) : bool :=
  Qle_bool 0 (v1 s) && Qle_bool 0 (v2 s) && Qle_bool (v2 s) (v1 s).

(** [PhysicsEngine.step(self, dt)]. *)
Definition step (fuel : nat) (dt : Q) : M (list event) :=
  log <- while_loop fuel dt ;;
  done <- read terminal ;;
  (if done then assign (set_finished true) else ret tt) ;;
  ret log.

(** ** Construction through the GUI: [App.reset_simulation] *)

(** The body of the [try] (lines 152-159) on the two parsed inputs: the
    mass check and the construction of a fresh engine. *)
Definition create (mass velocity : Q) : exn + PhysicsEngine :=
  if Qle_bool mass 0 then inl ValueError
  else inr (init mass velocity).

(** ** The states the methods leave *)

(** The state after [move t]. *)
Definition moved (t : Q) (s : PhysicsEngine) : PhysicsEngine :=
  set_x2 (x2 s + v2 s * t) (set_x1 (x1 s + v1 s * t) s).

(** The state after [resolve_wall_collision]. *)
Definition bounced (s : PhysicsEngine) : PhysicsEngine :=
  set_collisions (collisions s + 1)%Z (set_v2 (v2 s * -(1)) s).

(** The state after a [resolve_block_collision] that returns. *)
Definition collided (s : PhysicsEngine) : PhysicsEngine :=
  set_collisions (collisions s + 1)%Z
    (set_v2 (((m2 s - m1 s) * v2 s + 2 * m1 s * v1 s) / (m1 s + m2 s))
       (set_v1 (((m1 s - m2 s) * v1 s + 2 * m2 s * v2 s) / (m1 s + m2 s)) s)).

(** The state [step] leaves when its loop has left [s]. *)
Definition mark_finished (s : PhysicsEngine) : PhysicsEngine :=
  if terminal s then set_finished true s else s.

(** The two quotients of lines 34 and 45. *)
Definition wall_time (s : PhysicsEngine) : Q := x2 s / Qabs (v2 s).
Definition block_time (s : PhysicsEngine) : Q :=
  (x1 s - (x2 s + w2 s)) / (v2 s - v1 s).

(** The four ways an iteration of the loop can go: no event within [rem];
    a wall hit; a block hit; a block hit whose resolution divides by
    [m1 + m2 = 0].  Each case records the tests of the code that select
    it.  On a tie the code moves the blocks by [t_wall], the first
    argument of [min], which equals [t_block]: so the time [t] of a block
    hit is any number equal to [block_time s]. *)
Inductive iteration (rem : Q) (s : PhysicsEngine)
  : outcome (Q * list event) -> Prop :=
| iter_coast :
    (v2 s < 0 -> rem < wall_time s) ->
    (v1 s < v2 s -> rem < block_time s) ->
    iteration rem s (Ret (0, []) (moved rem s))
| iter_wall :
    v2 s < 0 ->
    wall_time s <= rem ->
    (v1 s < v2 s -> wall_time s < block_time s) ->
    iteration rem s
      (Ret (rem - wall_time s, [WallHit (wall_time s)])
           (bounced (moved (wall_time s) s)))
| iter_block (t : Q) :
    v1 s < v2 s ->
    t == block_time s ->
    t <= rem ->
    (v2 s < 0 -> t <= wall_time s) ->
    ~ m1 s + m2 s == 0 ->
    iteration rem s
      (Ret (rem - t, [BlockHit t]) (collided (moved t s)))
| iter_block_raise (t : Q) :
    v1 s < v2 s ->
    t == block_time s ->
    t <= rem ->
    (v2 s < 0 -> t <= wall_time s) ->
    m1 s + m2 s == 0 ->
    iteration rem s (Raise ZeroDivisionError (moved t s)).

(** ** Outcomes, invariants and termination *)

(** [after I P R o]: outcome [o] leaves a state satisfying [I] with a
    result satisfying [P] when it returns, and satisfies [R] when it
    raises. *)
Definition after {A} (I : PhysicsEngine -> Prop) (P : A -> Prop)
  (R : exn -> PhysicsEngine -> Prop) (o : outcome A) : Prop :=
  match o with
  | Ret a s => I s /\ P a
  | Raise e s => R e s
  | OutOfFuel => True
  end.

(** The state in which a call ended, by return or by exception. *)
Definition left_in {A} (o : outcome A) : option PhysicsEngine :=
  match o with
  | Ret _ s => Some s
  | Raise _ s => Some s
  | OutOfFuel => None
  end.

(** The loop started with [rem] in state [s] stops: the test fails, the
    body raises, or the body returns and the loop stops from there. *)
Inductive loop_halts : Q -> PhysicsEngine -> Prop :=
| halts_exit rem s :
    rem <= 0 -> loop_halts rem s
| halts_raise rem s e s1 :
    0 < rem -> loop_body rem s = Raise e s1 -> loop_halts rem s
| halts_iter rem s r s1 :
    0 < rem -> loop_body rem s = Ret r s1 -> loop_halts (fst r) s1 ->
    loop_halts rem s.

(** The states an application can observe: those [create] builds, and
    those any returning call of [step] leaves. *)
Inductive reachable : PhysicsEngine -> Prop :=
| reach_create mass velocity s :
    create mass velocity = inr s -> reachable s
| reach_step s fuel dt log s' :
    reachable s -> step fuel dt s = Ret log s' -> reachable s'.

(** ** Physical quantities and state predicates *)

Definition momentum (s : PhysicsEngine) : Q :=
  m1 s * v1 s + m2 s * v2 s.

(** Twice the kinetic energy. *)
Definition energy (s : PhysicsEngine) : Q :=
  m1 s * (v1 s * v1 s) + m2 s * (v2 s * v2 s).

(** The small block is not behind the wall and the large block not
    behind the right edge of the small one. *)
Definition separated (s : PhysicsEngine) : Prop :=
  0 <= x2 s /\ x2 s + w2 s <= x1 s.

(** Separated blocks with positive masses: the invariant of the loop. *)
Definition valid (s : PhysicsEngine) : Prop :=
  0 < m1 s /\ 0 < m2 s /\ separated s.

(** A valid state in which, besides, a block that touches what it can hit
    moves away from it, and the two blocks are not both closing in. *)
Definition poised (s : PhysicsEngine) : Prop :=
  valid s /\
  (0 < x2 s \/ 0 < v2 s) /\
  (x2 s + w2 s < x1 s \/ v2 s < v1 s) /\
  (0 <= v2 s \/ v2 s <= v1 s).

(** ** Some states *)

(** The default of the GUI: mass 100, velocity -100. *)
Definition fresh : PhysicsEngine := init 100 (-100).

(** The large block moving left, the small one moving right. *)
Definition closing : PhysicsEngine := set_v2 30 fresh.

End Exact.

(** * Properties *)

(** ** Binary64 floats: facts read off the specification of the
    operations *)

Lemma SFcompare_antisym (x y : spec_float) :
  SFcompare y x = option_map CompOpp (SFcompare x y).
Proof.
  destruct x as [sx|sx| |sx mx ex], y as [sy|sy| |sy my ey]; simpl;
    try reflexivity;
    try (destruct sx; reflexivity); try (destruct sy; reflexivity);
    try (destruct sx, sy; reflexivity).
  destruct sx, sy; simpl; try reflexivity;
    rewrite (Z.compare_antisym ex ey);
    destruct (ex ?= ey)%Z; simpl; try reflexivity;
    rewrite (Pos.compare_cont_antisym mx my Eq); simpl;
    try rewrite CompOpp_involutive; reflexivity.
Qed.


Lemma ltb_leb (a b : float) : (a <? b) = true -> (a <=? b) = true.
Proof.
  rewrite ltb_spec, leb_spec. unfold SFltb, SFleb.
  destruct (SFcompare (Prim2SF a) (Prim2SF b)) as [[]|];
    intro H; try discriminate; reflexivity.
Qed.

Lemma leb_not_ltb (a b : float) : (a <=? b) = true -> (b <? a) = false.
Proof.
  rewrite ltb_spec, leb_spec. unfold SFltb, SFleb.
  rewrite (SFcompare_antisym (Prim2SF a) (Prim2SF b)).
  destruct (SFcompare (Prim2SF a) (Prim2SF b)) as [[]|];
    intro H; try discriminate; reflexivity.
Qed.

Lemma ltb_not_leb (a b : float) : (a <? b) = true -> (b <=? a) = false.
Proof.
  rewrite ltb_spec, leb_spec. unfold SFltb, SFleb.
  rewrite (SFcompare_antisym (Prim2SF a) (Prim2SF b)).
  destruct (SFcompare (Prim2SF a) (Prim2SF b)) as [[]|];
    intro H; try discriminate; reflexivity.
Qed.

Lemma ltb_asym (a b : float) : (a <? b) = true -> (b <? a) = false.
Proof. intro H. apply leb_not_ltb, ltb_leb, H. Qed.

Lemma eqb_not_ltb (a b : float) :
  (a =? b) = true -> (a <? b) = false /\ (b <? a) = false.
Proof.
  rewrite !ltb_spec, FloatAxioms.eqb_spec. unfold SFltb, SFeqb.
  rewrite (SFcompare_antisym (Prim2SF a) (Prim2SF b)).
  destruct (SFcompare (Prim2SF a) (Prim2SF b)) as [[]|];
    intro H; try discriminate; split; reflexivity.
Qed.

(** [float('inf') <= x] only for [x = float('inf')]. *)
Lemma infinity_leb (x : float) : (infinity <=? x) = true -> x = infinity.
Proof.
  rewrite leb_spec. intro H. apply Prim2SF_inj.
  change (Prim2SF infinity) with (S754_infinity false) in *.
  destruct (Prim2SF x) as [s|[]| |[] m e]; simpl in H; try discriminate.
  reflexivity.
Qed.

Lemma ltb_infinity_false (x : float) : (infinity <? x) = false.
Proof.
  rewrite ltb_spec.
  change (Prim2SF infinity) with (S754_infinity false).
  destruct (Prim2SF x) as [s|[]| |[] m e]; reflexivity.
Qed.

(** *** No operation of the engine divides by zero under its guard *)

Definition SFnonzero (x : spec_float) : Prop :=
  match x with
  | S754_zero _ => False
  | _ => True
  end.

Lemma nonzero_eqb (x : float) : SFnonzero (Prim2SF x) -> (x =? 0) = false.
Proof.
  rewrite FloatAxioms.eqb_spec. change (Prim2SF 0) with (S754_zero false).
  destruct (Prim2SF x) as [s|[]| |[] m e]; simpl; intro H;
    try reflexivity; contradiction.
Qed.

Lemma abs_nonzero (a : float) : (a <? 0) = true -> (abs a =? 0) = false.
Proof.
  intro H. apply nonzero_eqb. rewrite abs_spec.
  rewrite ltb_spec in H. change (Prim2SF 0) with (S754_zero false) in H.
  destruct (Prim2SF a) as [s|[]| |[] m e]; simpl in *;
    try discriminate; exact I.
Qed.

Lemma digits2_size (p : positive) : digits2_pos p = Pos.size p.
Proof. induction p; simpl; congruence. Qed.

Lemma digits2_lower (p : positive) :
  (2 ^ (Zpos (digits2_pos p) - 1) <= Zpos p)%Z.
Proof.
  induction p as [p IH|p IH|]; cbn [digits2_pos].
  - rewrite Pos2Z.inj_succ.
    replace (Z.succ (Zpos (digits2_pos p)) - 1)%Z
      with (Z.succ (Zpos (digits2_pos p) - 1))%Z by lia.
    rewrite Z.pow_succ_r by lia. lia.
  - rewrite Pos2Z.inj_succ.
    replace (Z.succ (Zpos (digits2_pos p)) - 1)%Z
      with (Z.succ (Zpos (digits2_pos p) - 1))%Z by lia.
    rewrite Z.pow_succ_r by lia. lia.
  - simpl. lia.
Qed.

Lemma digits2_shift (m d : positive) :
  digits2_pos (Pos.iter xO m d) = (digits2_pos m + d)%positive.
Proof.
  revert m. induction d as [|d IH] using Pos.peano_ind; intro m.
  - simpl. lia.
  - rewrite Pos.iter_succ. cbn [digits2_pos]. rewrite IH. lia.
Qed.

Lemma shr_1_m (r : shr_record) :
  (0 <= shr_m r)%Z -> shr_m (shr_1 r) = (shr_m r / 2)%Z.
Proof.
  destruct r as [m r s]. cbn [shr_m]. intro Hm.
  destruct m as [|[p|p|]|p]; cbn [shr_1 shr_m]; try lia; try reflexivity.
  - apply Z.div_unique with 1%Z; lia.
  - apply Z.div_unique with 0%Z; lia.
Qed.

Lemma iter_shr_1_m (p : positive) :
  forall r, (0 <= shr_m r)%Z ->
    shr_m (SpecFloat.iter_pos shr_1 p r) = (shr_m r / 2 ^ Zpos p)%Z.
Proof.
  induction p as [p IH|p IH|]; intros r Hr; cbn [SpecFloat.iter_pos].
  - assert (H1 : (0 <= shr_m (shr_1 r))%Z).
    { rewrite shr_1_m by exact Hr. apply Z.div_pos; lia. }
    assert (H2 : (0 <= shr_m (SpecFloat.iter_pos shr_1 p (shr_1 r)))%Z).
    { rewrite IH by exact H1. apply Z.div_pos; lia. }
    rewrite IH by exact H2. rewrite IH by exact H1.
    rewrite shr_1_m by exact Hr.
    rewrite !Z.div_div by lia. f_equal.
    replace (Zpos p~1) with (1 + Zpos p + Zpos p)%Z by lia.
    rewrite !Z.pow_add_r by lia. lia.
  - assert (H2 : (0 <= shr_m (SpecFloat.iter_pos shr_1 p r))%Z).
    { rewrite IH by exact Hr. apply Z.div_pos; lia. }
    rewrite IH by exact H2. rewrite IH by exact Hr.
    rewrite !Z.div_div by lia. f_equal.
    replace (Zpos p~0) with (Zpos p + Zpos p)%Z by lia.
    rewrite !Z.pow_add_r by lia. lia.
  - rewrite shr_1_m by exact Hr. reflexivity.
Qed.

Lemma fexp_ge (z : Z) : (emin <= fexp prec emax z)%Z.
Proof. unfold fexp, SpecFloat.emin. lia. Qed.

Lemma shr_record_of_loc_m m l : shr_m (shr_record_of_loc m l) = m.
Proof. destruct l as [|[]]; reflexivity. Qed.

Lemma shr_fexp_pos (m e : Z) (l : location) :
  (0 < m)%Z -> (emin <= e)%Z ->
  (0 < shr_m (fst (shr_fexp prec emax m e l)))%Z /\
  (emin <= snd (shr_fexp prec emax m e l))%Z.
Proof.
  intros Hm He. unfold shr_fexp, shr.
  destruct m as [|m|m]; try lia. cbn [Zdigits2].
  remember (fexp prec emax (Zpos (digits2_pos m) + e) - e)%Z as n eqn:Hn.
  destruct n as [|p|p]; cbn [fst snd];
    try (rewrite shr_record_of_loc_m; split; lia).
  split.
  - rewrite iter_shr_1_m by (rewrite shr_record_of_loc_m; lia).
    rewrite shr_record_of_loc_m.
    apply Z.div_str_pos. split; [lia|].
    apply Z.le_trans with (2 ^ (Zpos (digits2_pos m) - 1))%Z;
      [|apply digits2_lower].
    apply Z.pow_le_mono_r; [lia|].
    unfold fexp, SpecFloat.emin in *.
    change prec with 53%Z in *. lia.
  - rewrite Hn. pose proof (fexp_ge (Zpos (digits2_pos m) + e)). lia.
Qed.

Lemma round_nearest_even_ge (m : Z) (l : location) :
  (m <= round_nearest_even m l)%Z.
Proof.
  destruct l as [|[]]; simpl; try lia. destruct (Z.even m); lia.
Qed.

(** What rounding a non-zero number gives: a non-zero finite number or an
    infinity, of the sign it was given. *)
Definition SFsigned (s : bool) (x : spec_float) : Prop :=
  match x with
  | S754_finite s' _ _ => s' = s
  | S754_infinity s' => s' = s
  | _ => False
  end.

Lemma binary_round_aux_signed (s : bool) (m e : Z) (l : location) :
  (0 < m)%Z -> (emin <= e)%Z ->
  SFsigned s (binary_round_aux prec emax s m e l).
Proof.
  intros Hm He. unfold binary_round_aux.
  destruct (shr_fexp_pos m e l Hm He) as [H1 H2].
  destruct (shr_fexp prec emax m e l) as [mrs1 e1]. cbn [fst snd] in *.
  pose proof (round_nearest_even_ge (shr_m mrs1) (loc_of_shr_record mrs1))
    as Hr.
  destruct (shr_fexp_pos
              (round_nearest_even (shr_m mrs1) (loc_of_shr_record mrs1))
              e1 loc_Exact ltac:(lia) H2) as [H3 H4].
  destruct (shr_fexp prec emax _ e1 loc_Exact) as [mrs2 e2].
  cbn [fst snd] in *.
  destruct (shr_m mrs2) as [|m2|m2]; try lia.
  destruct (e2 <=? emax - prec)%Z; reflexivity.
Qed.

Lemma binary_round_signed (s : bool) (m : positive) (e : Z) :
  (emin <= e)%Z -> SFsigned s (binary_round prec emax s m e).
Proof.
  intro He. unfold binary_round, shl_align.
  destruct (fexp prec emax (Zpos (digits2_pos m) + e) - e)%Z eqn:Hd;
    try (apply binary_round_aux_signed; [lia|exact He]).
  apply binary_round_aux_signed; [lia|apply fexp_ge].
Qed.

Lemma valid_emin (s : bool) (m : positive) (e : Z) :
  valid_binary (S754_finite s m e) = true -> (emin <= e)%Z.
Proof.
  cbn [SpecFloat.valid_binary]. unfold bounded, canonical_mantissa.
  intro H. apply andb_prop in H. destruct H as [H _].
  apply Z.eqb_eq in H. rewrite <- H. apply fexp_ge.
Qed.

Lemma SFsigned_nonzero s x : SFsigned s x -> SFnonzero x.
Proof. destruct x; simpl; auto. Qed.

Lemma valid_canonical (s : bool) (m : positive) (e : Z) :
  valid_binary (S754_finite s m e) = true ->
  fexp prec emax (Zpos (digits2_pos m) + e) = e.
Proof.
  cbn [SpecFloat.valid_binary]. unfold bounded, canonical_mantissa.
  intro H. apply andb_prop in H. destruct H as [H _].
  apply Z.eqb_eq in H. exact H.
Qed.

(** Two valid finite numbers whose mantissas agree once aligned on the
    smaller exponent are the same number. *)
Lemma aligned_equal (sx sy : bool) (mx my : positive) (ex ey : Z) :
  valid_binary (S754_finite sx mx ex) = true ->
  valid_binary (S754_finite sy my ey) = true ->
  fst (shl_align mx ex (Z.min ey ex)) = fst (shl_align my ey (Z.min ey ex)) ->
  ex = ey /\ mx = my.
Proof.
  intros Vx Vy. apply valid_canonical in Vx, Vy.
  unfold shl_align.
  destruct (Z.min ey ex - ex)%Z as [|d|d] eqn:Hx;
    destruct (Z.min ey ex - ey)%Z as [|d'|d'] eqn:Hy;
    cbn [fst]; intro H; try lia.
  - exfalso. subst mx. rewrite digits2_shift in Vx.
    rewrite Pos2Z.inj_add in Vx.
    replace (Zpos (digits2_pos my) + Zpos d' + ex)%Z
      with (Zpos (digits2_pos my) + ey)%Z in Vx by lia.
    lia.
  - exfalso. subst my. rewrite digits2_shift in Vy.
    rewrite Pos2Z.inj_add in Vy.
    replace (Zpos (digits2_pos mx) + Zpos d + ey)%Z
      with (Zpos (digits2_pos mx) + ex)%Z in Vy by lia.
    lia.
Qed.

Lemma SFsub_nonzero (x y : spec_float) :
  valid_binary x = true -> valid_binary y = true ->
  SFcompare x y = Some Lt -> SFnonzero (SF64sub y x).
Proof.
  intros Vx Vy Hc.
  destruct x as [sx|sx| |sx mx ex], y as [sy|sy| |sy my ey];
    try discriminate;
    try (destruct sx, sy; try discriminate; exact I);
    try (destruct sx; try discriminate; exact I);
    try (destruct sy; try discriminate; exact I).
  unfold SF64sub, SFsub.
  pose proof (valid_emin _ _ _ Vx) as Ex.
  pose proof (valid_emin _ _ _ Vy) as Ey.
  pose proof (aligned_equal sx sy mx my ex ey Vx Vy) as Heq.
  destruct (fst (shl_align my ey (Z.min ey ex))) as [ ] eqn:Ay.
  all: destruct (fst (shl_align mx ex (Z.min ey ex))) as [ ] eqn:Ax.
  all: unfold binary_normalize.
  all: match goal with
       | |- SFnonzero (match ?d with _ => _ end) =>
           destruct d as [|q|q] eqn:Hd
       end.
  all: try (eapply SFsigned_nonzero; apply binary_round_signed; lia).
  all: exfalso.
  all: destruct sx, sy; cbn [cond_Zopp] in Hd; try lia.
  all: assert (Hm : ex = ey /\ mx = my) by (apply Heq; lia).
  all: destruct Hm as [-> ->]; simpl in Hc.
  all: rewrite Z.compare_refl, Pos.compare_cont_refl in Hc; discriminate.
Qed.

Lemma sub_nonzero (a b : float) :
  (a <? b) = true -> (b - a =? 0) = false.
Proof.
  intro H. apply nonzero_eqb. rewrite sub_spec.
  apply SFsub_nonzero; try apply Prim2SF_valid.
  rewrite ltb_spec in H. unfold SFltb in H.
  destruct (SFcompare (Prim2SF a) (Prim2SF b)) as [[]|];
    try discriminate; reflexivity.
Qed.

Lemma SFadd_positive (x y : spec_float) :
  valid_binary x = true -> valid_binary y = true ->
  SFcompare (S754_zero false) x = Some Lt ->
  SFcompare (S754_zero false) y = Some Lt ->
  SFsigned false (SF64add x y).
Proof.
  intros Vx Vy Hx Hy.
  destruct x as [sx|[]| |[] mx ex], y as [sy|[]| |[] my ey];
    try discriminate; try reflexivity.
  unfold SF64add, SFadd.
  pose proof (valid_emin _ _ _ Vx) as Ex.
  pose proof (valid_emin _ _ _ Vy) as Ey.
  cbn [cond_Zopp]. unfold binary_normalize.
  match goal with
  | |- SFsigned _ (match ?d with _ => _ end) => destruct d as [|q|q] eqn:Hd
  end; try lia.
  apply binary_round_signed. lia.
Qed.

Lemma add_positive (a b : float) :
  (0 <? a) = true -> (0 <? b) = true ->
  (0 <? a + b) = true /\ (a + b =? 0) = false.
Proof.
  intros Ha Hb. rewrite ltb_spec in Ha, Hb. unfold SFltb in Ha, Hb.
  change (Prim2SF 0) with (S754_zero false) in Ha, Hb.
  assert (Hs : SFsigned false (Prim2SF (a + b))).
  { rewrite add_spec. apply SFadd_positive; try apply Prim2SF_valid.
    - destruct (SFcompare (S754_zero false) (Prim2SF a)) as [[]|];
        try discriminate; reflexivity.
    - destruct (SFcompare (S754_zero false) (Prim2SF b)) as [[]|];
        try discriminate; reflexivity. }
  split.
  - rewrite ltb_spec. change (Prim2SF 0) with (S754_zero false).
    destruct (Prim2SF (a + b)) as [s|[]| |[] m e]; simpl in Hs;
      try contradiction; try discriminate; reflexivity.
  - apply nonzero_eqb. eapply SFsigned_nonzero, Hs.
Qed.

(** *** Multiplying by [-1] only flips the sign *)

Lemma iter_pos_nat {A} (f : A -> A) (p : positive) :
  forall x, SpecFloat.iter_pos f p x = Nat.iter (Pos.to_nat p) f x.
Proof.
  induction p as [p IH|p IH|]; intro x; cbn [SpecFloat.iter_pos].
  - rewrite !IH, Pos2Nat.inj_xI.
    replace (S (2 * Pos.to_nat p)) with (Pos.to_nat p + (Pos.to_nat p + 1))%nat
      by lia.
    rewrite !Nat.iter_add. reflexivity.
  - rewrite !IH, Pos2Nat.inj_xO.
    replace (2 * Pos.to_nat p)%nat with (Pos.to_nat p + Pos.to_nat p)%nat
      by lia.
    rewrite Nat.iter_add. reflexivity.
  - reflexivity.
Qed.

Lemma shr_1_shifted (n : nat) :
  forall m : positive,
    Nat.iter n shr_1
      {| shr_m := Zpos (Nat.iter n xO m); shr_r := false; shr_s := false |} =
    {| shr_m := Zpos m; shr_r := false; shr_s := false |}.
Proof.
  induction n as [|n IH]; intro m; [reflexivity|].
  rewrite Nat.iter_succ_r. cbn [Nat.iter shr_1 orb]. apply IH.
Qed.

Lemma binary_round_aux_shifted (s s' : bool) (m p : positive) (e : Z) :
  valid_binary (S754_finite s m e) = true ->
  binary_round_aux prec emax s' (Zpos (Pos.iter xO m p)) (e - Zpos p)
    loc_Exact =
  S754_finite s' m e.
Proof.
  intro V. pose proof (valid_canonical s m e V) as Hc.
  cbn [SpecFloat.valid_binary] in V. unfold bounded in V.
  apply andb_prop in V. destruct V as [_ Hb].
  unfold binary_round_aux, shr_fexp. cbn [Zdigits2].
  rewrite digits2_shift, Pos2Z.inj_add.
  replace (Zpos (digits2_pos m) + Zpos p + (e - Zpos p))%Z
    with (Zpos (digits2_pos m) + e)%Z by lia.
  rewrite Hc. replace (e - (e - Zpos p))%Z with (Zpos p) by lia.
  cbn [shr shr_record_of_loc]. rewrite iter_pos_nat.
  rewrite Pos2Nat.inj_iter. 
  replace (nat_rect (fun _ : nat => positive) m (fun _ : nat => xO)
             (Pos.to_nat p)) with (Nat.iter (Pos.to_nat p) xO m)
    by reflexivity.
  rewrite shr_1_shifted. cbn [shr_m loc_of_shr_record round_nearest_even].
  cbn [Zdigits2]. replace (e - Zpos p + Zpos p)%Z with e by lia.
  rewrite Hc, Z.sub_diag. cbn [shr shr_record_of_loc shr_m].
  now rewrite Hb.
Qed.

Lemma SFmul_neg_one (x : spec_float) :
  valid_binary x = true ->
  SF64mul x (S754_finite true 4503599627370496 (-52)) = SFopp x.
Proof.
  intro V. destruct x as [s|s| |s m e]; cbn [SF64mul SFmul SFopp].
  - now destruct s.
  - now destruct s.
  - reflexivity.
  - unfold SF64mul, SFmul.
    replace (Pos.mul m 4503599627370496) with (Pos.iter xO m 52)
      by (rewrite Pos.mul_comm; reflexivity).
    change (e + -52)%Z with (e - 52)%Z.
    rewrite (binary_round_aux_shifted s (xorb s true) m 52 e V).
    now destruct s.
Qed.

Lemma mul_neg_one (v : float) : v * -1 = - v.
Proof.
  apply Prim2SF_inj. rewrite mul_spec, opp_spec.
  change (Prim2SF (-1)) with (S754_finite true 4503599627370496 (-52)).
  apply SFmul_neg_one, Prim2SF_valid.
Qed.

Lemma opp_positive (v : float) : v < 0 -> 0 < - v.
Proof.
  rewrite !ltb_spec, opp_spec.
  change (Prim2SF 0) with (S754_zero false).
  destruct (Prim2SF v) as [s|[]| |[] m e]; simpl; intro H;
    try discriminate; reflexivity.
Qed.

(** More on comparisons. *)

Lemma leb_false_cases (a : float) :
  (a <=? 0) = false -> 0 < a \/ a = nan.
Proof.
  rewrite leb_spec, ltb_spec. unfold SFleb, SFltb.
  rewrite (SFcompare_antisym (Prim2SF a) (Prim2SF 0)).
  destruct (SFcompare (Prim2SF a) (Prim2SF 0)) as [[]|] eqn:E;
    intro H; try discriminate.
  - left. reflexivity.
  - right. apply Prim2SF_inj. change (Prim2SF nan) with S754_nan.
    change (Prim2SF 0) with (S754_zero false) in E.
    destruct (Prim2SF a) as [s|[]| |[] m e]; simpl in E;
      try discriminate; reflexivity.
Qed.

(** A number that is at most some number and not below [float('inf')]
    is [float('inf')]. *)
Lemma not_below_infinity (t r : float) :
  t <= r -> (t <? infinity) = false -> t = infinity.
Proof.
  rewrite leb_spec, ltb_spec. intros H1 H2. apply Prim2SF_inj.
  change (Prim2SF infinity) with (S754_infinity false) in *.
  unfold SFleb in H1. unfold SFltb in H2.
  destruct (Prim2SF t) as [s|[]| |[] m e]; simpl in *;
    try discriminate; try reflexivity.
Qed.

Lemma infinity_not_leb (x : float) :
  x <> infinity -> (infinity <=? x) = false.
Proof.
  intro H. destruct (infinity <=? x) eqn:E; [|reflexivity].
  apply infinity_leb in E. contradiction.
Qed.

(** The divisor [m1 + m2] of the block resolution is never zero for a
    mass that passed the check of [reset_simulation]. *)
Lemma mass_sum_nonzero (m : float) :
  (m <=? 0) = false -> (m + 1 =? 0) = false.
Proof.
  intro H. destruct (leb_false_cases m H) as [Hm| ->].
  - apply add_positive; [exact Hm|reflexivity].
  - reflexivity.
Qed.

(** ** What each method does to the state *)

Lemma truediv_ok (a b : float) (s : PhysicsEngine) :
  (b =? 0) = false -> truediv a b s = Ret (a / b) s.
Proof. intro H. unfold truediv. now rewrite H. Qed.

Lemma truediv_zero (a b : float) (s : PhysicsEngine) :
  (b =? 0) = true -> truediv a b s = Raise ZeroDivisionError s.
Proof. intro H. unfold truediv. now rewrite H. Qed.

Lemma move_run (t : float) (s : PhysicsEngine) :
  move t s = Ret tt (moved t s).
Proof. reflexivity. Qed.

Lemma resolve_wall_collision_run (s : PhysicsEngine) :
  resolve_wall_collision s = Ret tt (bounced s).
Proof. reflexivity. Qed.

Lemma resolve_block_collision_run (s : PhysicsEngine) :
  (m1 s + m2 s =? 0) = false ->
  resolve_block_collision s = Ret tt (collided s).
Proof.
  intro H. unfold resolve_block_collision, bind, read.
  rewrite !truediv_ok by exact H. reflexivity.
Qed.

Lemma resolve_block_collision_raise (s : PhysicsEngine) :
  (m1 s + m2 s =? 0) = true ->
  resolve_block_collision s = Raise ZeroDivisionError s.
Proof.
  intro H. unfold resolve_block_collision, bind, read.
  rewrite truediv_zero by exact H. reflexivity.
Qed.

(** Neither event time is ever left by [ZeroDivisionError]: under its
    guard each divisor is non-zero, in binary64 too. *)
Lemma time_to_wall_run (s : PhysicsEngine) :
  time_to_wall s = Ret (wall_time s) s.
Proof.
  unfold time_to_wall, wall_time, bind, read.
  destruct (v2 s <? 0) eqn:E; [|reflexivity].
  apply truediv_ok, abs_nonzero, E.
Qed.

Lemma time_to_block_run (s : PhysicsEngine) :
  time_to_block s = Ret (block_time s) s.
Proof.
  unfold time_to_block, block_time, bind, read.
  destruct (v1 s <? v2 s) eqn:E; [|reflexivity].
  apply truediv_ok, sub_nonzero, E.
Qed.

Lemma loop_body_run (rem : float) (s : PhysicsEngine) :
  loop_body rem s = after_iteration rem s.
Proof.
  unfold loop_body, after_iteration, bind at 1. rewrite time_to_wall_run.
  unfold bind at 1. rewrite time_to_block_run.
  cbv zeta.
  destruct (py_min (wall_time s) (block_time s) <=? rem);
    [|reflexivity].
  unfold bind at 1. rewrite move_run.
  destruct (wall_time s <? block_time s); [reflexivity|].
  unfold bind.
  change (m1 s + m2 s) with
    (m1 (moved (py_min (wall_time s) (block_time s)) s)
     + m2 (moved (py_min (wall_time s) (block_time s)) s)).
  destruct (m1 (moved (py_min (wall_time s) (block_time s)) s)
            + m2 (moved (py_min (wall_time s) (block_time s)) s) =? 0)
    eqn:Em.
  - now rewrite resolve_block_collision_raise.
  - now rewrite resolve_block_collision_run.
Qed.

(** ** The loop and [step], unfolded *)

Lemma while_loop_exit (fuel : nat) (rem : float) (s : PhysicsEngine) :
  (0 <? rem) = false -> while_loop fuel rem s = Ret [] s.
Proof. intro H. destruct fuel; simpl; rewrite H; reflexivity. Qed.

Lemma while_loop_iter (fuel : nat) (rem : float) (s : PhysicsEngine) :
  0 < rem ->
  while_loop (S fuel) rem s =
  match loop_body rem s with
  | Ret r s1 =>
      match while_loop fuel (fst r) s1 with
      | Ret rest s' => Ret (snd r ++ rest) s'
      | Raise e s' => Raise e s'
      | OutOfFuel => OutOfFuel
      end
  | Raise e s1 => Raise e s1
  | OutOfFuel => OutOfFuel
  end.
Proof.
  intro H. simpl. rewrite H. unfold bind.
  destruct (loop_body rem s) as [r s1| |]; try reflexivity.
Qed.

Lemma while_loop_out_of_fuel (rem : float) (s : PhysicsEngine) :
  0 < rem -> while_loop 0 rem s = OutOfFuel.
Proof. intro H. simpl. now rewrite H. Qed.

Lemma step_run (fuel : nat) (dt : float) (s : PhysicsEngine) :
  step fuel dt s =
  match while_loop fuel dt s with
  | Ret log s' => Ret log (mark_finished s')
  | Raise e s' => Raise e s'
  | OutOfFuel => OutOfFuel
  end.
Proof.
  unfold step, bind, read, mark_finished.
  destruct (while_loop fuel dt s) as [log s'| |]; try reflexivity.
  destruct (terminal s'); reflexivity.
Qed.

(** ** Loop invariants *)

Section LoopInvariant.
Variable inv : PhysicsEngine -> Prop.
Hypothesis keep_moved : forall t s, inv s -> inv (moved t s).
Hypothesis keep_bounced : forall s, inv s -> inv (bounced s).
Hypothesis keep_collided : forall s, inv s -> inv (collided s).

Lemma loop_body_keeps (rem : float) (s : PhysicsEngine) :
  inv s -> leaves inv (loop_body rem s).
Proof.
  intro H. rewrite loop_body_run. unfold after_iteration.
  destruct (_ <=? rem); [|now apply keep_moved].
  destruct (_ <? _); [now apply keep_bounced, keep_moved|].
  destruct (_ =? 0); simpl; auto.
Qed.

Lemma while_loop_keeps (fuel : nat) :
  forall rem s, inv s -> leaves inv (while_loop fuel rem s).
Proof.
  induction fuel as [|fuel IH]; intros rem s H;
    destruct (0 <? rem) eqn:E;
    try (rewrite while_loop_exit by exact E; exact H).
  - rewrite while_loop_out_of_fuel by exact E. exact Logic.I.
  - rewrite while_loop_iter by exact E.
    pose proof (loop_body_keeps rem s H) as Hb.
    destruct (loop_body rem s) as [r s1|e s1|]; simpl in *; auto.
    specialize (IH (fst r) s1 Hb).
    destruct (while_loop fuel (fst r) s1); simpl in *; auto.
Qed.

Hypothesis keep_finished : forall s, inv s -> inv (set_finished true s).

Lemma step_keeps (fuel : nat) (dt : float) (s : PhysicsEngine) :
  inv s -> leaves inv (step fuel dt s).
Proof.
  intro H. rewrite step_run.
  pose proof (while_loop_keeps fuel dt s H) as Hl.
  destruct (while_loop fuel dt s) as [log s1|e s1|]; simpl in *; auto.
  unfold mark_finished. destruct (terminal s1); auto.
Qed.
End LoopInvariant.

(** ** What the loop never touches *)

Lemma evolves_refl (s : PhysicsEngine) : evolves s s.
Proof. unfold evolves. repeat split; auto; lia. Qed.

Lemma step_evolves (fuel : nat) (dt : float) (s : PhysicsEngine) :
  leaves (evolves s) (step fuel dt s).
Proof.
  apply step_keeps; try apply evolves_refl; unfold evolves;
    intros; simpl; intuition lia.
Qed.

Lemma while_loop_evolves (fuel : nat) (rem : float) (s : PhysicsEngine) :
  leaves (evolves s) (while_loop fuel rem s).
Proof.
  apply while_loop_keeps; try apply evolves_refl; unfold evolves;
    intros; simpl; intuition lia.
Qed.

(** The loop never assigns to [finished]. *)
Lemma while_loop_flag (fuel : nat) (rem : float) (s : PhysicsEngine) :
  leaves (fun s' => finished s' = finished s) (while_loop fuel rem s).
Proof. apply while_loop_keeps; auto. Qed.

(** ** Counting collisions *)

Lemma loop_body_counts (rem : float) (s : PhysicsEngine) r s' :
  loop_body rem s = Ret r s' ->
  collisions s' = (collisions s + Z.of_nat (length (snd r)))%Z.
Proof.
  rewrite loop_body_run. unfold after_iteration.
  destruct (_ <=? rem).
  - destruct (_ <? _).
    + intro H. inversion H; subst. simpl. lia.
    + destruct (_ =? 0); intro H; inversion H; subst. simpl. lia.
  - intro H. inversion H; subst. simpl. lia.
Qed.

Lemma while_loop_counts (fuel : nat) :
  forall rem s log s',
    while_loop fuel rem s = Ret log s' ->
    collisions s' = (collisions s + Z.of_nat (length log))%Z.
Proof.
  induction fuel as [|fuel IH]; intros rem s log s' H;
    destruct (0 <? rem) eqn:E;
    try (rewrite while_loop_exit in H by exact E;
         inversion H; subst; simpl; lia).
  - rewrite while_loop_out_of_fuel in H by exact E. discriminate.
  - rewrite while_loop_iter in H by exact E.
    destruct (loop_body rem s) as [r s1|e s1|] eqn:Hb; try discriminate.
    destruct (while_loop fuel (fst r) s1) as [rest s2|e s2|] eqn:Hl;
      try discriminate.
    inversion H; subst.
    apply loop_body_counts in Hb. apply IH in Hl.
    rewrite length_app, Nat2Z.inj_add. lia.
Qed.

Lemma mark_finished_flag (s : PhysicsEngine) :
  finished (mark_finished s) = finished s || terminal s.
Proof.
  unfold mark_finished. destruct (terminal s); simpl.
  - now rewrite orb_true_r.
  - now rewrite orb_false_r.
Qed.

Lemma mark_finished_rest (s : PhysicsEngine) :
  m1 (mark_finished s) = m1 s /\ m2 (mark_finished s) = m2 s /\
  x1 (mark_finished s) = x1 s /\ x2 (mark_finished s) = x2 s /\
  w1 (mark_finished s) = w1 s /\ w2 (mark_finished s) = w2 s /\
  v1 (mark_finished s) = v1 s /\ v2 (mark_finished s) = v2 s /\
  collisions (mark_finished s) = collisions s.
Proof.
  unfold mark_finished. destruct (terminal s); repeat split.
Qed.

Lemma terminal_mark_finished (s : PhysicsEngine) :
  terminal (mark_finished s) = terminal s.
Proof. unfold mark_finished. destruct (terminal s) eqn:E; auto. Qed.

Lemma step_counts (fuel : nat) (dt : float) (s : PhysicsEngine) log s' :
  step fuel dt s = Ret log s' ->
  collisions s' = (collisions s + Z.of_nat (length log))%Z.
Proof.
  rewrite step_run.
  destruct (while_loop fuel dt s) as [l s1|e s1|] eqn:Hl; try discriminate.
  intro H. inversion H; subst.
  destruct (mark_finished_rest s1) as (_ & _ & _ & _ & _ & _ & _ & _ & Hc).
  rewrite Hc. now apply (while_loop_counts fuel dt s).
Qed.

(** ** The terminal test and the guards *)

Lemma terminal_iff (s : PhysicsEngine) :
  terminal s = true <-> 0 <= v1 s /\ 0 <= v2 s /\ v2 s <= v1 s.
Proof. unfold terminal. rewrite !andb_true_iff. tauto. Qed.

Lemma wall_time_off (s : PhysicsEngine) :
  0 <= v2 s -> wall_time s = infinity.
Proof.
  intro H. unfold wall_time. now rewrite (leb_not_ltb _ _ H).
Qed.

Lemma block_time_off (s : PhysicsEngine) :
  v2 s <= v1 s -> block_time s = infinity.
Proof.
  intro H. unfold block_time. now rewrite (leb_not_ltb _ _ H).
Qed.

(** With both guards off and a [time_remaining] other than
    [float('inf')], the iteration only moves the blocks. *)
Lemma loop_body_coasts (rem : float) (s : PhysicsEngine) :
  0 <= v2 s -> v2 s <= v1 s -> rem <> infinity ->
  loop_body rem s = Ret (0, []) (moved rem s).
Proof.
  intros Hw Hb Hr. rewrite loop_body_run. unfold after_iteration.
  rewrite (wall_time_off s Hw), (block_time_off s Hb).
  change (py_min infinity infinity) with infinity.
  now rewrite (infinity_not_leb rem Hr).
Qed.

Lemma while_loop_coasts (fuel : nat) (rem : float) (s : PhysicsEngine) :
  0 <= v2 s -> v2 s <= v1 s -> rem <> infinity ->
  while_loop (S fuel) rem s =
  Ret [] (if 0 <? rem then moved rem s else s).
Proof.
  intros Hw Hb Hr. destruct (0 <? rem) eqn:E.
  - rewrite while_loop_iter by exact E.
    rewrite (loop_body_coasts rem s Hw Hb Hr). cbn [fst snd].
    now rewrite while_loop_exit by reflexivity.
  - now apply while_loop_exit.
Qed.

(** From a state that passes the terminal test a call only moves the
    blocks, whatever fuel it is given. *)
Lemma while_loop_terminal (fuel : nat) (rem : float) (s : PhysicsEngine) :
  terminal s = true -> rem <> infinity ->
  forall log s',
    while_loop fuel rem s = Ret log s' ->
    log = [] /\ v1 s' = v1 s /\ v2 s' = v2 s /\
    collisions s' = collisions s.
Proof.
  intros Ht Hr log s' H. apply terminal_iff in Ht.
  destruct Ht as (_ & Hw & Hb).
  destruct fuel as [|fuel].
  - destruct (0 <? rem) eqn:E.
    + rewrite while_loop_out_of_fuel in H by exact E. discriminate.
    + rewrite while_loop_exit in H by exact E. inversion H; subst. auto.
  - rewrite (while_loop_coasts fuel rem s Hw Hb Hr) in H.
    inversion H; subst. destruct (0 <? rem); auto.
Qed.

(** ** Reachable states *)

Lemma create_sound (mass velocity : float) (s : PhysicsEngine) :
  create mass velocity = inr s -> sound s.
Proof.
  unfold create. destruct (mass <=? 0) eqn:E; [discriminate|].
  intro H. inversion H; subst. unfold sound, init; simpl.
  repeat split; auto; try lia; discriminate.
Qed.

Lemma step_sound (fuel : nat) (dt : float) (s : PhysicsEngine) log s' :
  sound s -> real_dt dt -> step fuel dt s = Ret log s' -> sound s'.
Proof.
  intros (Hm & Hm2 & Hw1 & Hw2 & Hc & Hf) Hdt Hrun.
  pose proof (step_evolves fuel dt s) as He. rewrite Hrun in He.
  destruct He as (E1 & E2 & E3 & E4 & E5 & _).
  unfold sound. rewrite E1, E2, E3, E4.
  repeat (split; [assumption || lia|]).
  rewrite step_run in Hrun.
  destruct (while_loop fuel dt s) as [l s1|e s1|] eqn:Hl; try discriminate.
  inversion Hrun; subst. rewrite terminal_mark_finished.
  rewrite mark_finished_flag.
  pose proof (while_loop_flag fuel dt s) as Hflag. rewrite Hl in Hflag.
  simpl in Hflag. rewrite Hflag.
  destruct (finished s) eqn:Ef; simpl; [|auto].
  intros _. specialize (Hf eq_refl).
  destruct (while_loop_terminal fuel dt s Hf Hdt _ s1 Hl)
    as (_ & Hv1 & Hv2 & _).
  unfold terminal in *. now rewrite Hv1, Hv2.
Qed.

Lemma reachable_sound (s : PhysicsEngine) : reachable s -> sound s.
Proof.
  induction 1 as [mass velocity s H|s fuel dt log s' _ IH Hdt Hrun].
  - exact (create_sound mass velocity s H).
  - exact (step_sound fuel dt s log s' IH Hdt Hrun).
Qed.

Lemma later_reachable (s s' : PhysicsEngine) :
  reachable s -> later s s' -> reachable s'.
Proof.
  intros Hr Hl. induction Hl as [s|s fuel dt log s1 s' Hdt Hrun _ IH].
  - exact Hr.
  - apply IH. exact (reach_step s fuel dt log s1 Hr Hdt Hrun).
Qed.

Lemma later_trans (ok : float -> Prop) (a b c : PhysicsEngine) :
  later_by ok a b -> later_by ok b c -> later_by ok a c.
Proof.
  intros Hab Hbc. induction Hab as [s|s fuel dt log s1 s' Hdt Hrun _ IH].
  - exact Hbc.
  - exact (later_call ok s fuel dt log s1 c Hdt Hrun (IH Hbc)).
Qed.

(** No call on a state that satisfies [sound] is left by an exception. *)
Lemma loop_body_no_raise (rem : float) (s : PhysicsEngine) :
  (m1 s <=? 0) = false -> m2 s = 1 ->
  forall e s', loop_body rem s <> Raise e s'.
Proof.
  intros Hm Hm2 e s'. rewrite loop_body_run. unfold after_iteration.
  rewrite Hm2, (mass_sum_nonzero _ Hm).
  destruct (_ <=? rem); [destruct (_ <? _)|]; discriminate.
Qed.

Lemma while_loop_no_raise (fuel : nat) :
  forall rem s,
    (m1 s <=? 0) = false -> m2 s = 1 ->
    forall e s', while_loop fuel rem s <> Raise e s'.
Proof.
  induction fuel as [|fuel IH]; intros rem s Hm Hm2 e s';
    destruct (0 <? rem) eqn:E;
    try (rewrite while_loop_exit by exact E; discriminate).
  - rewrite while_loop_out_of_fuel by exact E. discriminate.
  - rewrite while_loop_iter by exact E.
    pose proof (loop_body_no_raise rem s Hm Hm2) as Hb.
    pose proof (loop_body_keeps (evolves s)) as Hk.
    specialize (Hk ltac:(unfold evolves; intros; simpl; intuition lia)
                   ltac:(unfold evolves; intros; simpl; intuition lia)
                   ltac:(unfold evolves; intros; simpl; intuition lia)
                   rem s (evolves_refl s)).
    destruct (loop_body rem s) as [r s1|e1 s1|]; try discriminate.
    + simpl in Hk. destruct Hk as (E1 & E2 & _).
      assert (Hm' : (m1 s1 <=? 0) = false) by now rewrite E1.
      assert (Hm2' : m2 s1 = 1) by now rewrite E2.
      specialize (IH (fst r) s1 Hm' Hm2' e s').
      destruct (while_loop fuel (fst r) s1); try discriminate.
      exact IH.
    + exfalso. exact (Hb e1 s1 eq_refl).
Qed.

Lemma step_no_raise (fuel : nat) (dt : float) (s : PhysicsEngine) :
  (m1 s <=? 0) = false -> m2 s = 1 ->
  forall e s', step fuel dt s <> Raise e s'.
Proof.
  intros Hm Hm2 e s'. rewrite step_run.
  pose proof (while_loop_no_raise fuel dt s Hm Hm2) as H.
  destruct (while_loop fuel dt s) as [l s1|e1 s1|]; try discriminate.
  exfalso. exact (H e1 s1 eq_refl).
Qed.

(** * Main theorems on the code *)

(** ** Construction *)



(** ** The guards of the two event times *)

(** An iteration from a state in which the small block does not move
    toward the wall resolves no wall hit; one from a state in which the
    large block does not close in resolves no block hit, unless
    [time_remaining] is [float('inf')]. *)
Lemma loop_body_events (rem : float) (s : PhysicsEngine) :
  forall r s', loop_body rem s = Ret r s' ->
    (0 <= v2 s -> forall t, ~ In (WallHit t) (snd r)) /\
    (v2 s <= v1 s -> rem <> infinity ->
     forall t, ~ In (BlockHit t) (snd r)).
Proof.
  intros r s'. rewrite loop_body_run. unfold after_iteration.
  destruct (_ <=? rem) eqn:Ele.
  - destruct (wall_time s <? block_time s) eqn:Elt.
    + intro H. inversion H; subst. simpl. split.
      * intros Hv t _. rewrite (wall_time_off s Hv) in Elt.
        rewrite ltb_infinity_false in Elt. discriminate.
      * intros _ _ t [Hin|[]]. discriminate.
    + destruct (_ =? 0); intro H; inversion H; subst. simpl. split.
      * intros _ t [Hin|[]]. discriminate.
      * intros Hv Hr t _. rewrite (block_time_off s Hv) in *.
        unfold py_min in Ele. rewrite ltb_infinity_false in Ele.
        rewrite (not_below_infinity _ _ Ele Elt) in Ele.
        rewrite (infinity_not_leb rem Hr) in Ele. discriminate.
  - intro H. inversion H; subst. simpl. split; intros; tauto.
Qed.

(** C9.  In an iteration of the loop of [step]: if [v2 >= 0] the computed
    time to the wall is [float('inf')], and if [v1 >= v2] the computed
    time to the block is [float('inf')].  Neither computation ever raises
    [ZeroDivisionError], in particular not when [v2] is 0 (whatever [x2],
    also 0) and not when [v1] equals [v2]; and in those cases the
    iteration registers no wall hit, respectively (for a
    [time_remaining] other than [float('inf')]) no block hit, and when
    both hold it leaves velocities and the collision count as they
    were. *)
Theorem guards_yield_infinity (s : PhysicsEngine) :
  (0 <= v2 s -> time_to_wall s = Ret infinity s) /\
  (v2 s <= v1 s -> time_to_block s = Ret infinity s) /\
  (exists t, time_to_wall s = Ret t s) /\
  (exists t, time_to_block s = Ret t s) /\
  (forall rem r s', loop_body rem s = Ret r s' ->
     (0 <= v2 s -> forall t, ~ In (WallHit t) (snd r)) /\
     (v2 s <= v1 s -> rem <> infinity ->
      forall t, ~ In (BlockHit t) (snd r))) /\
  (0 <= v2 s -> v2 s <= v1 s ->
   forall rem, rem <> infinity -> exists s',
     loop_body rem s = Ret (0, []) s' /\
     v1 s' = v1 s /\ v2 s' = v2 s /\ collisions s' = collisions s).
Proof.
  split; [|split; [|split; [|split; [|split]]]].
  - intro Hv. rewrite time_to_wall_run. now rewrite wall_time_off.
  - intro Hv. rewrite time_to_block_run. now rewrite block_time_off.
  - exists (wall_time s). apply time_to_wall_run.
  - exists (block_time s). apply time_to_block_run.
  - intros rem. apply loop_body_events.
  - intros Hw Hb rem Hr. exists (moved rem s).
    split; [now apply loop_body_coasts|repeat split].
Qed.

Lemma guards_yield_infinity_witness :
  (v2 resting_at_wall = 0 /\ x2 resting_at_wall = 0 /\
   v1 resting_at_wall = v2 resting_at_wall) /\
  time_to_wall resting_at_wall = Ret infinity resting_at_wall /\
  time_to_block resting_at_wall = Ret infinity resting_at_wall /\
  forall rem, rem <> infinity -> exists s',
    loop_body rem resting_at_wall = Ret (0, []) s' /\
    v1 s' = v1 resting_at_wall /\ v2 s' = v2 resting_at_wall /\
    collisions s' = collisions resting_at_wall.
Proof.
  assert (Hw : 0 <= v2 resting_at_wall) by reflexivity.
  assert (Hb : v2 resting_at_wall <= v1 resting_at_wall) by reflexivity.
  pose proof (guards_yield_infinity resting_at_wall)
    as (G1 & G2 & _ & _ & _ & G6).
  split; [repeat split|].
  split; [exact (G1 Hw)|split; [exact (G2 Hb)|exact (G6 Hw Hb)]].
Defined.

(** ** The tie-break *)

(** C6.  When the computed wall time and the computed block time are
    equal ([t_wall == t_block]) and no larger than the time remaining,
    the iteration moves the blocks by that time and applies the block
    resolution, not the wall resolution: it registers one block hit and
    leaves the state [resolve_block_collision] leaves. *)
Theorem tie_resolves_block
  (rem : float) (s : PhysicsEngine) (tw tb : float) :
  0 < m1 s -> m2 s = 1 ->
  time_to_wall s = Ret tw s ->
  time_to_block s = Ret tb s ->
  (tw =? tb) = true -> tw <= rem ->
  exists s',
    loop_body rem s = Ret (rem - tw, [BlockHit tw]) s' /\
    (move tw ;; resolve_block_collision) s = Ret tt s' /\
    collisions s' = (collisions s + 1)%Z /\
    v1 s' = ((m1 s - m2 s) * v1 s + 2 * m2 s * v2 s) / (m1 s + m2 s) /\
    v2 s' = ((m2 s - m1 s) * v2 s + 2 * m1 s * v1 s) / (m1 s + m2 s).
Proof.
  intros Hm1 Hm2 Hw Hb Heq Hle.
  rewrite time_to_wall_run in Hw. rewrite time_to_block_run in Hb.
  injection Hw as Hw'. injection Hb as Hb'. subst tw tb.
  destruct (eqb_not_ltb _ _ Heq) as [Hlt Hgt].
  assert (Hsum : (m1 s + m2 s =? 0) = false).
  { rewrite Hm2. apply add_positive; [exact Hm1|reflexivity]. }
  exists (collided (moved (wall_time s) s)).
  split; [|split; [|repeat split]].
  - rewrite loop_body_run. unfold after_iteration, py_min.
    rewrite Hgt, Hle, Hlt, Hsum. reflexivity.
  - unfold bind at 1. rewrite move_run.
    now apply resolve_block_collision_run.
Qed.

Lemma tie_resolves_block_witness :
  0 < m1 tie_state /\ m2 tie_state = 1 /\
  time_to_wall tie_state = Ret 1 tie_state /\
  time_to_block tie_state = Ret 1 tie_state /\
  (1 =? 1) = true /\ 1 <= 3 /\
  exists s',
    loop_body 3 tie_state = Ret (3 - 1, [BlockHit 1]) s' /\
    (move 1 ;; resolve_block_collision) tie_state = Ret tt s' /\
    collisions s' = (collisions tie_state + 1)%Z /\
    v1 s' = ((m1 tie_state - m2 tie_state) * v1 tie_state
             + 2 * m2 tie_state * v2 tie_state)
            / (m1 tie_state + m2 tie_state) /\
    v2 s' = ((m2 tie_state - m1 tie_state) * v2 tie_state
             + 2 * m1 tie_state * v1 tie_state)
            / (m1 tie_state + m2 tie_state).
Proof.
  assert (H1 : 0 < m1 tie_state) by reflexivity.
  assert (H2 : m2 tie_state = 1) by reflexivity.
  assert (H3 : time_to_wall tie_state = Ret 1 tie_state) by reflexivity.
  assert (H4 : time_to_block tie_state = Ret 1 tie_state) by reflexivity.
  assert (H5 : (1 =? 1) = true) by reflexivity.
  assert (H6 : 1 <= 3) by reflexivity.
  repeat (split; [assumption|]).
  exact (tie_resolves_block 3 tie_state 1 1 H1 H2 H3 H4 H5 H6).
Defined.

(** ** Non-positive time steps *)

(** Against C4: a fresh engine whose large block moves away from the wall
    is not yet [finished]; [step(0)] on it neither raises nor leaves it
    unchanged, because the terminal test runs after the (empty) loop and
    sets [finished]. *)
Lemma step_zero_dt_sets_finished :
  0 <= 0 /\
  forall fuel,
    step fuel 0 departing = Ret [] coasting /\
    finished departing = false /\ finished coasting = true /\
    ~ rejects_or_leaves_unchanged fuel 0 departing.
Proof.
  split; [reflexivity|]. intro fuel.
  assert (Hrun : step fuel 0 departing = Ret [] coasting).
  { rewrite step_run, while_loop_exit by reflexivity. reflexivity. }
  split; [exact Hrun|split; [reflexivity|split; [reflexivity|]]].
  intros [[e [s' H]]|[log H]]; rewrite Hrun in H; discriminate.
Qed.

(** C4, as the code has it.  For every state and every [dt <= 0], [step]
    raises nothing and returns without running the loop body: masses,
    widths, positions, velocities and the collision count are exactly
    those before the call.  The terminal test still runs: [finished] is
    true afterwards exactly when it was true before or both velocities
    are non-negative with [v1 >= v2]. *)
Theorem step_nonpositive_dt
  (fuel : nat) (dt : float) (s : PhysicsEngine) :
  dt <= 0 ->
  exists s',
    step fuel dt s = Ret [] s' /\
    m1 s' = m1 s /\ m2 s' = m2 s /\
    x1 s' = x1 s /\ x2 s' = x2 s /\
    w1 s' = w1 s /\ w2 s' = w2 s /\
    v1 s' = v1 s /\ v2 s' = v2 s /\
    collisions s' = collisions s /\
    (finished s' = true <->
     finished s = true \/ (0 <= v1 s /\ 0 <= v2 s /\ v2 s <= v1 s)).
Proof.
  intro Hdt. exists (mark_finished s). split.
  - rewrite step_run, while_loop_exit by exact (leb_not_ltb _ _ Hdt).
    reflexivity.
  - pose proof (mark_finished_rest s) as Hrest.
    repeat (split; [tauto|]).
    rewrite mark_finished_flag, orb_true_iff, terminal_iff. tauto.
Qed.

Lemma step_nonpositive_dt_witness :
  -1 <= 0 /\
  exists s',
    step 0 (-1) departing = Ret [] s' /\
    m1 s' = m1 departing /\ m2 s' = m2 departing /\
    x1 s' = x1 departing /\ x2 s' = x2 departing /\
    w1 s' = w1 departing /\ w2 s' = w2 departing /\
    v1 s' = v1 departing /\ v2 s' = v2 departing /\
    collisions s' = collisions departing /\
    (finished s' = true <->
     finished departing = true \/
     (0 <= v1 departing /\ 0 <= v2 departing /\
      v2 departing <= v1 departing)).
Proof.
  assert (H : -1 <= 0) by reflexivity.
  split; [exact H|exact (step_nonpositive_dt 0 (-1) departing H)].
Defined.

(** ** [finished] is never reset *)

(** From a reachable state in which [finished] is true, a call with a
    [dt] other than [float('inf')] returns on any fuel from 1 on: it
    only moves the blocks. *)
Lemma step_after_end (dt : float) (s : PhysicsEngine) :
  reachable s -> finished s = true -> real_dt dt ->
  forall fuel, (1 <= fuel)%nat ->
    step fuel dt s =
    Ret [] (mark_finished (if 0 <? dt then moved dt s else s)).
Proof.
  intros Hr Hf Hdt.
  pose proof (reachable_sound s Hr) as (_ & _ & _ & _ & _ & Ht).
  specialize (Ht Hf). apply terminal_iff in Ht.
  destruct Ht as (_ & Hw & Hb).
  intros [|fuel] Hfuel; [lia|].
  now rewrite step_run, (while_loop_coasts fuel dt s Hw Hb Hdt).
Qed.

(** C7.  From a state in which [finished] is true, every call of [step],
    with any [dt] ([float('inf')] and NaN included), leaves [finished]
    true, whether it returns or raises; so does every sequence of
    calls; and in a state reachable from a construction the call, with
    any [dt] but [float('inf')], does return. *)
Theorem finished_never_reverts (s : PhysicsEngine) :
  finished s = true ->
  (forall fuel dt log s',
     step fuel dt s = Ret log s' -> finished s' = true) /\
  (forall fuel dt e s',
     step fuel dt s = Raise e s' -> finished s' = true) /\
  (forall s', later_by (fun _ => True) s s' -> finished s' = true) /\
  (reachable s ->
   forall dt, real_dt dt -> exists n log s',
     (forall fuel, (n <= fuel)%nat -> step fuel dt s = Ret log s') /\
     finished s' = true).
Proof.
  intro Hf.
  assert (Hcall : forall s0 fuel dt s',
    finished s0 = true -> left_in (step fuel dt s0) = Some s' ->
    finished s' = true).
  { intros s0 fuel dt s' H0 H.
    pose proof (step_evolves fuel dt s0) as He.
    destruct (step fuel dt s0) as [l a|e a|]; simpl in *;
      inversion H; subst; unfold evolves in He; tauto. }
  split; [|split; [|split]].
  - intros fuel dt log s' H. apply (Hcall s fuel dt s' Hf).
    now rewrite H.
  - intros fuel dt e s' H. apply (Hcall s fuel dt s' Hf).
    now rewrite H.
  - intros s' Hl.
    induction Hl as [s|s fuel dt log s1 s' _ Hrun _ IH]; [exact Hf|].
    apply IH. apply (Hcall s fuel dt s1 Hf). now rewrite Hrun.
  - intros Hr dt Hdt.
    pose proof (step_after_end dt s Hr Hf Hdt) as Hrun.
    exists 1%nat, [], (mark_finished (if 0 <? dt then moved dt s else s)).
    split; [exact Hrun|].
    apply (Hcall s 1%nat dt _ Hf). now rewrite (Hrun 1%nat (le_n 1)).
Qed.

Lemma finished_never_reverts_witness :
  finished coasting = true /\
  (forall fuel dt log s',
     step fuel dt coasting = Ret log s' -> finished s' = true) /\
  (forall fuel dt e s',
     step fuel dt coasting = Raise e s' -> finished s' = true) /\
  (forall s', later_by (fun _ => True) coasting s' -> finished s' = true) /\
  reachable coasting /\
  (forall dt, real_dt dt -> exists n log s',
     (forall fuel, (n <= fuel)%nat -> step fuel dt coasting = Ret log s') /\
     finished s' = true).
Proof.
  assert (H : finished coasting = true) by reflexivity.
  assert (Hd : reachable departing).
  { apply (reach_create 100 5). reflexivity. }
  assert (Hz : real_dt 0).
  { intro E. apply (f_equal Prim2SF) in E. discriminate. }
  assert (Hr : reachable coasting).
  { apply (reach_step departing 0 0 [] coasting Hd Hz). reflexivity. }
  destruct (finished_never_reverts coasting H) as (F1 & F2 & F3 & F4).
  split; [exact H|split; [exact F1|split; [exact F2|split; [exact F3|]]]].
  split; [exact Hr|exact (F4 Hr)].
Defined.

(** ** After the end *)

(** C8.  In a reachable state in which [finished] is true, every call of
    [step], with any [dt] but [float('inf')], returns having resolved no
    collision: the collision count and both velocities are exactly those
    before the call, [finished] is still true and the state is again
    reachable (only the positions may have changed); hence the same
    holds after every later sequence of calls. *)
Theorem finished_resolves_nothing (s : PhysicsEngine) :
  reachable s -> finished s = true ->
  (forall dt, real_dt dt -> exists n s',
     (forall fuel, (n <= fuel)%nat -> step fuel dt s = Ret [] s') /\
     collisions s' = collisions s /\ v1 s' = v1 s /\ v2 s' = v2 s /\
     finished s' = true /\ reachable s') /\
  (forall s', later s s' ->
     collisions s' = collisions s /\ v1 s' = v1 s /\ v2 s' = v2 s /\
     finished s' = true /\ reachable s').
Proof.
  assert (Hcall : forall s0 fuel dt log s',
    reachable s0 -> finished s0 = true -> real_dt dt ->
    step fuel dt s0 = Ret log s' ->
    log = [] /\ collisions s' = collisions s0 /\ v1 s' = v1 s0 /\
    v2 s' = v2 s0 /\ finished s' = true).
  { intros s0 fuel dt log s' Hr Hf Hdt Hrun.
    pose proof (reachable_sound s0 Hr) as (_ & _ & _ & _ & _ & Ht).
    specialize (Ht Hf).
    pose proof (step_evolves fuel dt s0) as He. rewrite Hrun in He.
    destruct He as (_ & _ & _ & _ & _ & Hfl).
    rewrite step_run in Hrun.
    destruct (while_loop fuel dt s0) as [l s1|e s1|] eqn:Hl;
      try discriminate.
    inversion Hrun; subst.
    destruct (while_loop_terminal fuel dt s0 Ht Hdt _ s1 Hl)
      as (Hlog & Hv1 & Hv2 & Hc).
    destruct (mark_finished_rest s1)
      as (_ & _ & _ & _ & _ & _ & Mv1 & Mv2 & Mc).
    rewrite Mv1, Mv2, Mc. repeat split; auto. }
  intros Hr Hf. split.
  - intros dt Hdt.
    exists 1%nat, (mark_finished (if 0 <? dt then moved dt s else s)).
    pose proof (step_after_end dt s Hr Hf Hdt) as Hrun.
    split; [exact Hrun|].
    destruct (Hcall s 1%nat dt [] _ Hr Hf Hdt (Hrun 1%nat (le_n 1)))
      as (_ & Hc & Hv1 & Hv2 & Hf').
    repeat (split; [assumption|]).
    exact (reach_step s 1 dt [] _ Hr Hdt (Hrun 1%nat (le_n 1))).
  - intros s' Hl.
    induction Hl as [s|s fuel dt log s1 s' Hdt Hrun _ IH].
    + repeat split; auto.
    + destruct (Hcall s fuel dt log s1 Hr Hf Hdt Hrun)
        as (_ & Hc & Hv1 & Hv2 & Hf1).
      pose proof (reach_step s fuel dt log s1 Hr Hdt Hrun) as Hr1.
      destruct (IH Hr1 Hf1) as (Ic & Iv1 & Iv2 & If & Ir).
      rewrite Ic, Iv1, Iv2. auto.
Qed.

Lemma finished_resolves_nothing_witness :
  reachable coasting /\ finished coasting = true /\
  (forall dt, real_dt dt -> exists n s',
     (forall fuel, (n <= fuel)%nat -> step fuel dt coasting = Ret [] s') /\
     collisions s' = collisions coasting /\
     v1 s' = v1 coasting /\ v2 s' = v2 coasting /\
     finished s' = true /\ reachable s') /\
  (forall s', later coasting s' ->
     collisions s' = collisions coasting /\
     v1 s' = v1 coasting /\ v2 s' = v2 coasting /\
     finished s' = true /\ reachable s').
Proof.
  assert (Hd : reachable departing).
  { apply (reach_create 100 5). reflexivity. }
  assert (Hz : real_dt 0).
  { intro H. apply (f_equal Prim2SF) in H. discriminate. }
  assert (Hr : reachable coasting).
  { apply (reach_step departing 0 0 [] coasting Hd Hz). reflexivity. }
  assert (Hf : finished coasting = true) by reflexivity.
  split; [exact Hr|split; [exact Hf|]].
  exact (finished_resolves_nothing coasting Hr Hf).
Defined.

(** * Where rounding shows *)

(** The default run of the GUI (mass 100, velocity -100): one long call
    resolves 31 collisions and sets [finished]. *)
Example default_run_counts :
  match step 40 10 fresh with
  | Ret log s => Some (length log, collisions s, finished s)
  | _ => None
  end = Some (31%nat, 31%Z, true).
Proof. vm_compute. reflexivity. Qed.

(** Sixty ticks of the animation are not one call [step(1.0)]: the
    large block, which one call takes from 400 to exactly 300, is a
    little short of 300 after the ticks. *)
Example sixty_ticks :
  (exists e,
     animate_n 2 60 (reset_simulation 100 (-100) no_engine) =
     AppRet {| engine := Some e; error_shown := false |} /\
     x1 e < 300 /\ collisions e = 0%Z) /\
  (exists s, step 2 1 fresh = Ret [] s /\ x1 s = 300).
Proof.
  split; eexists; (split; [vm_compute; reflexivity|]);
    try split; reflexivity.
Qed.

(** Equal masses: [step(10)] resolves three collisions (block, wall,
    block) and sets [finished]. *)
Example equal_masses_run :
  step 5 10 equal_masses = Ret equal_masses_log equal_masses_final /\
  collisions equal_masses_final = 3%Z /\
  finished equal_masses_final = true.
Proof. repeat split. Qed.





(** * The engine in exact arithmetic

    Everything in this section is about the module [Exact]: it holds
    of the formulas of the code evaluated without rounding, not of the
    binary64 results the code stores. *)

Section ExactArithmetic.
Import Exact.
Local Open Scope Q_scope.
Local Open Scope exact_scope.

(** ** Comparisons *)

Lemma Qlt_bool_iff (x y : Q) : Qlt_bool x y = true <-> x < y.
Proof. unfold Qlt_bool, Qlt. apply Z.ltb_lt. Qed.

Lemma Qlt_bool_false (x y : Q) : Qlt_bool x y = false <-> y <= x.
Proof. unfold Qlt_bool, Qle. apply Z.ltb_ge. Qed.

Lemma Qle_bool_false (x y : Q) : Qle_bool x y = false <-> y < x.
Proof.
  split; intro H.
  - apply Qnot_le_lt. intro Hle. apply Qle_bool_iff in Hle. congruence.
  - destruct (Qle_bool x y) eqn:E; [|reflexivity].
    apply Qle_bool_iff in E. lra.
Qed.

Lemma Qeq_bool_false (x y : Q) : Qeq_bool x y = false <-> ~ x == y.
Proof.
  split; intro H.
  - now apply Qeq_bool_neq.
  - destruct (Qeq_bool x y) eqn:E; [|reflexivity].
    apply Qeq_bool_iff in E. contradiction.
Qed.

(** Turns every boolean comparison among the hypotheses into the order
    relation it decides. *)
Ltac order_hyps :=
  repeat match goal with
  | H : Qlt_bool _ _ = true |- _ => apply Qlt_bool_iff in H
  | H : Qlt_bool _ _ = false |- _ => apply Qlt_bool_false in H
  | H : Qle_bool _ _ = true |- _ => apply Qle_bool_iff in H
  | H : Qle_bool _ _ = false |- _ => apply Qle_bool_false in H
  | H : Qeq_bool _ _ = true |- _ => apply Qeq_bool_iff in H
  | H : Qeq_bool _ _ = false |- _ => apply Qeq_bool_false in H
  end.

Lemma Qabs_of_neg (v : Q) : v < 0 -> Qabs v == - v.
Proof. intro H. apply Qabs_neg. lra. Qed.

(** ** What each method does to the state *)

Lemma truediv_ok_exact (a b : Q) (s : PhysicsEngine) :
  ~ b == 0 -> truediv a b s = Ret (a / b) s.
Proof.
  intro H. unfold truediv. apply Qeq_bool_false in H. now rewrite H.
Qed.

Lemma truediv_zero_exact (a b : Q) (s : PhysicsEngine) :
  b == 0 -> truediv a b s = Raise ZeroDivisionError s.
Proof.
  intro H. unfold truediv. apply Qeq_bool_iff in H. now rewrite H.
Qed.

Lemma move_run_exact (t : Q) (s : PhysicsEngine) :
  move t s = Ret tt (moved t s).
Proof. reflexivity. Qed.

Lemma resolve_wall_collision_run_exact (s : PhysicsEngine) :
  resolve_wall_collision s = Ret tt (bounced s).
Proof. reflexivity. Qed.

Lemma resolve_block_collision_run_exact (s : PhysicsEngine) :
  ~ m1 s + m2 s == 0 -> resolve_block_collision s = Ret tt (collided s).
Proof.
  intro H. unfold resolve_block_collision, bind, read.
  rewrite !truediv_ok_exact by exact H. reflexivity.
Qed.

Lemma resolve_block_collision_raise_exact (s : PhysicsEngine) :
  m1 s + m2 s == 0 -> resolve_block_collision s = Raise ZeroDivisionError s.
Proof.
  intro H. unfold resolve_block_collision, bind, read.
  rewrite truediv_zero_exact by exact H. reflexivity.
Qed.

Lemma time_to_wall_run_exact (s : PhysicsEngine) :
  time_to_wall s =
  Ret (if Qlt_bool (v2 s) 0 then Fin (wall_time s) else Inf) s.
Proof.
  unfold time_to_wall, bind, read.
  destruct (Qlt_bool (v2 s) 0) eqn:E; [|reflexivity].
  order_hyps. rewrite truediv_ok_exact; [reflexivity|].
  rewrite (Qabs_of_neg _ E). lra.
Qed.

Lemma time_to_block_run_exact (s : PhysicsEngine) :
  time_to_block s =
  Ret (if Qlt_bool (v1 s) (v2 s) then Fin (block_time s) else Inf) s.
Proof.
  unfold time_to_block, bind, read.
  destruct (Qlt_bool (v1 s) (v2 s)) eqn:E; [|reflexivity].
  order_hyps. rewrite truediv_ok_exact; [reflexivity|]. lra.
Qed.

(** ** The four ways an iteration of the loop can go *)

(** The tail of the [then] branch when the block resolution is chosen. *)
Lemma block_branch (rem t : Q) (s : PhysicsEngine) :
  v1 s < v2 s ->
  t == block_time s ->
  t <= rem ->
  (v2 s < 0 -> t <= wall_time s) ->
  iteration rem s
    ((move t ;; resolve_block_collision ;; ret (rem - t, [BlockHit t])) s).
Proof.
  intros Hv Ht Hr Hw. unfold bind at 1. rewrite move_run_exact.
  destruct (Qeq_bool (m1 s + m2 s) 0) eqn:Em; order_hyps; unfold bind.
  - rewrite resolve_block_collision_raise_exact by exact Em.
    now apply iter_block_raise.
  - rewrite resolve_block_collision_run_exact by exact Em.
    now apply iter_block.
Qed.

Lemma loop_body_cases (rem : Q) (s : PhysicsEngine) :
  iteration rem s (loop_body rem s).
Proof.
  unfold loop_body, bind at 1. rewrite time_to_wall_run_exact.
  unfold bind at 1. rewrite time_to_block_run_exact.
  destruct (Qlt_bool (v2 s) 0) eqn:Ew;
    destruct (Qlt_bool (v1 s) (v2 s)) eqn:Eb;
    unfold time_min, time_ltb, within.
  - (* both times finite *)
    destruct (Qlt_bool (block_time s) (wall_time s)) eqn:Elt.
    + destruct (Qle_bool (block_time s) rem) eqn:Ele.
      * destruct (Qlt_bool (wall_time s) (block_time s)) eqn:Egt;
          [order_hyps; lra|].
        order_hyps. apply block_branch; auto; try reflexivity; lra.
      * unfold bind. rewrite move_run_exact. order_hyps.
        apply iter_coast; intros; lra.
    + destruct (Qle_bool (wall_time s) rem) eqn:Ele.
      * destruct (Qlt_bool (wall_time s) (block_time s)) eqn:Egt.
        -- unfold bind.
           rewrite move_run_exact, resolve_wall_collision_run_exact.
           order_hyps. apply iter_wall; auto.
        -- order_hyps. apply block_branch; auto; lra.
      * unfold bind. rewrite move_run_exact. order_hyps.
        apply iter_coast; intros; lra.
  - (* only the wall time is finite *)
    destruct (Qle_bool (wall_time s) rem) eqn:Ele.
    + unfold bind. rewrite move_run_exact, resolve_wall_collision_run_exact.
      order_hyps. apply iter_wall; auto. intros; lra.
    + unfold bind. rewrite move_run_exact. order_hyps.
      apply iter_coast; intros; lra.
  - (* only the block time is finite *)
    destruct (Qle_bool (block_time s) rem) eqn:Ele.
    + order_hyps. apply block_branch; auto; try reflexivity; intros; lra.
    + unfold bind. rewrite move_run_exact. order_hyps.
      apply iter_coast; intros; lra.
  - (* neither *)
    unfold bind. rewrite move_run_exact. order_hyps.
    apply iter_coast; intros; lra.
Qed.

(** ** Momentum, energy and relative velocity *)

Lemma Qsq_nonneg (a : Q) : 0 <= a * a.
Proof.
  destruct (Qlt_le_dec a 0) as [H|H].
  - setoid_replace (a * a) with ((- a) * (- a)) by ring.
    apply Qmult_le_0_compat; lra.
  - apply Qmult_le_0_compat; lra.
Qed.

Lemma collided_v1 (s : PhysicsEngine) :
  v1 (collided s) = ((m1 s - m2 s) * v1 s + 2 * m2 s * v2 s) / (m1 s + m2 s).
Proof. reflexivity. Qed.

Lemma collided_v2 (s : PhysicsEngine) :
  v2 (collided s) = ((m2 s - m1 s) * v2 s + 2 * m1 s * v1 s) / (m1 s + m2 s).
Proof. reflexivity. Qed.

Lemma collided_momentum (s : PhysicsEngine) :
  ~ m1 s + m2 s == 0 -> momentum (collided s) == momentum s.
Proof.
  intro H. unfold momentum. rewrite collided_v1, collided_v2.
  change (m1 (collided s)) with (m1 s). change (m2 (collided s)) with (m2 s).
  field. exact H.
Qed.

Lemma collided_energy (s : PhysicsEngine) :
  ~ m1 s + m2 s == 0 -> energy (collided s) == energy s.
Proof.
  intro H. unfold energy. rewrite collided_v1, collided_v2.
  change (m1 (collided s)) with (m1 s). change (m2 (collided s)) with (m2 s).
  field. exact H.
Qed.

Lemma collided_relative (s : PhysicsEngine) :
  ~ m1 s + m2 s == 0 ->
  v1 (collided s) - v2 (collided s) == - (v1 s - v2 s).
Proof.
  intro H. rewrite collided_v1, collided_v2. field. exact H.
Qed.

Lemma bounced_momentum (s : PhysicsEngine) :
  momentum (bounced s) == momentum s - 2 * m2 s * v2 s.
Proof. unfold momentum; simpl. ring. Qed.

Lemma bounced_energy (s : PhysicsEngine) : energy (bounced s) == energy s.
Proof. unfold energy; simpl. ring. Qed.

(** Cauchy-Schwarz for the two blocks. *)
Lemma momentum_sq_le (s : PhysicsEngine) :
  0 <= m1 s -> 0 <= m2 s ->
  momentum s * momentum s <= (m1 s + m2 s) * energy s.
Proof.
  intros H1 H2. unfold momentum, energy.
  assert (H : 0 <= m1 s * m2 s * ((v1 s - v2 s) * (v1 s - v2 s))).
  { apply Qmult_le_0_compat; [apply Qmult_le_0_compat; assumption|].
    apply Qsq_nonneg. }
  lra.
Qed.

(** The quotients of lines 34 and 45, as products. *)
Lemma wall_time_eq (s : PhysicsEngine) :
  v2 s < 0 -> wall_time s * - v2 s == x2 s.
Proof.
  intro H. unfold wall_time. rewrite (Qabs_of_neg _ H). field. lra.
Qed.

Lemma block_time_eq (s : PhysicsEngine) :
  v1 s < v2 s -> block_time s * (v2 s - v1 s) == x1 s - (x2 s + w2 s).
Proof. intro H. unfold block_time. field. lra. Qed.

(** ** The loop and [step], unfolded *)

Lemma while_loop_exit_exact (fuel : nat) (rem : Q) (s : PhysicsEngine) :
  rem <= 0 -> while_loop fuel rem s = Ret [] s.
Proof.
  intro H. apply Qlt_bool_false in H.
  destruct fuel; simpl; rewrite H; reflexivity.
Qed.

Lemma while_loop_iter_exact (fuel : nat) (rem : Q) (s : PhysicsEngine) :
  0 < rem ->
  while_loop (S fuel) rem s =
  match loop_body rem s with
  | Ret r s1 =>
      match while_loop fuel (fst r) s1 with
      | Ret rest s' => Ret (snd r ++ rest) s'
      | Raise e s' => Raise e s'
      | OutOfFuel => OutOfFuel
      end
  | Raise e s1 => Raise e s1
  | OutOfFuel => OutOfFuel
  end.
Proof.
  intro H. apply Qlt_bool_iff in H. simpl. rewrite H. unfold bind.
  destruct (loop_body rem s) as [r s1| |]; try reflexivity.
Qed.

Lemma step_run_exact (fuel : nat) (dt : Q) (s : PhysicsEngine) :
  step fuel dt s =
  match while_loop fuel dt s with
  | Ret log s' => Ret log (mark_finished s')
  | Raise e s' => Raise e s'
  | OutOfFuel => OutOfFuel
  end.
Proof.
  unfold step, bind, read, mark_finished.
  destruct (while_loop fuel dt s) as [log s'| |]; try reflexivity.
  destruct (terminal s'); reflexivity.
Qed.

(** ** Loop invariants *)

Section LoopInvariant.
Variable I : PhysicsEngine -> Prop.
Variable P : event -> Prop.
Variable R : exn -> PhysicsEngine -> Prop.

Hypothesis body_keeps :
  forall rem s, 0 < rem -> I s ->
    after I (fun r => Forall P (snd r)) R (loop_body rem s).

Lemma while_loop_keeps_exact (fuel : nat) :
  forall rem s, I s -> after I (Forall P) R (while_loop fuel rem s).
Proof.
  induction fuel as [|fuel IH]; intros rem s Hs.
  - simpl. destruct (Qlt_bool 0 rem); simpl; auto.
  - destruct (Qlt_le_dec 0 rem) as [Hpos|Hneg].
    + rewrite while_loop_iter_exact by exact Hpos.
      pose proof (body_keeps rem s Hpos Hs) as Hb.
      destruct (loop_body rem s) as [r s1|e s1|]; simpl in *; auto.
      destruct Hb as [Hs1 Hr].
      pose proof (IH (fst r) s1 Hs1) as Hrest.
      destruct (while_loop fuel (fst r) s1) as [rest s'|e s'|];
        simpl in *; auto.
      destruct Hrest as [Hs' Hlog]. split; [exact Hs'|].
      apply Forall_app; auto.
    + rewrite while_loop_exit_exact by exact Hneg. simpl. auto.
Qed.
End LoopInvariant.

(** ** Termination of the loop *)

(** A loop that halts runs to completion on some fuel, and gives the same
    outcome on any larger fuel. *)
Lemma loop_halts_fuel (rem : Q) (s : PhysicsEngine) :
  loop_halts rem s ->
  exists n, while_loop n rem s <> OutOfFuel /\
            forall fuel, (n <= fuel)%nat ->
                         while_loop fuel rem s = while_loop n rem s.
Proof.
  induction 1 as [rem s Hneg|rem s e s1 Hpos Hb|rem s r s1 Hpos Hb _ IH].
  - exists 0%nat. split.
    + rewrite while_loop_exit_exact by exact Hneg. discriminate.
    + intros fuel _. now rewrite !while_loop_exit_exact by exact Hneg.
  - exists 1%nat. split.
    + rewrite while_loop_iter_exact, Hb by exact Hpos. discriminate.
    + intros [|fuel] Hle; [lia|].
      now rewrite !while_loop_iter_exact, Hb by exact Hpos.
  - destruct IH as [n [Hn Hsame]]. exists (S n). split.
    + rewrite while_loop_iter_exact, Hb by exact Hpos.
      destruct (while_loop n (fst r) s1); congruence.
    + intros [|fuel] Hle; [lia|].
      rewrite !while_loop_iter_exact, Hb by exact Hpos.
      rewrite (Hsame fuel) by lia. reflexivity.
Qed.

(** ** Arithmetic behind the bound on the number of collisions *)

(** After a block hit the small block can hit the wall and then be hit
    again only if it is the faster of the two; its speed [- w] is then at
    least any [c] with [(mL + mS) c^2] below the energy. *)
Lemma rebound_speed (mL mS u w c : Q) :
  0 < mL -> 0 < mS -> 0 < c ->
  w < 0 -> w <= u -> u < - w ->
  (mL + mS) * (c * c) <= mL * (u * u) + mS * (w * w) ->
  c <= - w.
Proof.
  intros HmL HmS Hc Hw Hwu Huw He.
  destruct (Qlt_le_dec (- w) c) as [Hlt|Hge]; [|exact Hge].
  exfalso.
  assert (H1 : 0 <= mL * ((- w - u) * (u - w))).
  { apply Qmult_le_0_compat; [lra|]. apply Qmult_le_0_compat; lra. }
  assert (H2 : 0 < (mL + mS) * ((c - - w) * (c + - w))).
  { apply Qmult_lt_0_compat; [lra|]. apply Qmult_lt_0_compat; lra. }
  lra.
Qed.

Lemma square_le_le (p b : Q) : 0 <= b -> p * p <= b * b -> p <= b.
Proof.
  intros Hb Hsq.
  destruct (Qlt_le_dec b p) as [Hlt|Hge]; [|exact Hge].
  exfalso.
  assert (H : 0 < (p - b) * (p + b)).
  { apply Qmult_lt_0_compat; lra. }
  lra.
Qed.

Lemma momentum_le_bound (s : PhysicsEngine) (b : Q) :
  0 <= m1 s -> 0 <= m2 s -> 0 <= b ->
  (m1 s + m2 s) * energy s <= b * b ->
  momentum s <= b.
Proof.
  intros H1 H2 Hb He. apply square_le_le; [exact Hb|].
  pose proof (momentum_sq_le s H1 H2). lra.
Qed.

Lemma energy_pos (s : PhysicsEngine) :
  0 <= m1 s -> 0 < m2 s -> v2 s < 0 -> 0 < energy s.
Proof.
  intros H1 H2 Hv. unfold energy.
  pose proof (Qmult_le_0_compat _ _ H1 (Qsq_nonneg (v1 s))) as Hsq.
  assert (H : 0 < m2 s * ((- v2 s) * (- v2 s))).
  { apply Qmult_lt_0_compat; [exact H2|]. apply Qmult_lt_0_compat; lra. }
  lra.
Qed.

Lemma of_nat_succ (n : nat) :
  inject_Z (Z.of_nat (S n)) == inject_Z (Z.of_nat n) + 1.
Proof. rewrite Nat2Z.inj_succ, <- Z.add_1_r, inject_Z_plus. reflexivity. Qed.

(** The rationals are Archimedean. *)
Lemma nat_multiple_above (d k : Q) :
  0 < k -> exists n : nat, d < k * inject_Z (Z.of_nat n).
Proof.
  intro Hk. exists (Z.to_nat (Qfloor (d / k) + 1)).
  pose proof (Qlt_floor (d / k)) as Hfl.
  assert (Hz : inject_Z (Qfloor (d / k) + 1) <=
               inject_Z (Z.of_nat (Z.to_nat (Qfloor (d / k) + 1)))).
  { rewrite <- Zle_Qle. lia. }
  assert (Hd : d == k * (d / k)) by (field; lra).
  assert (Hm : k * (d / k) < k * inject_Z (Qfloor (d / k) + 1)).
  { apply Qmult_lt_l; assumption. }
  assert (Hn : k * inject_Z (Qfloor (d / k) + 1) <=
               k * inject_Z (Z.of_nat (Z.to_nat (Qfloor (d / k) + 1)))).
  { apply Qmult_le_l; assumption. }
  lra.
Qed.

(** A bound [c] on the speed and a bound [b] on the momentum. *)
Lemma speed_bound_exists (mass e : Q) :
  0 < mass -> 0 < e -> exists c, 0 < c /\ mass * (c * c) <= e.
Proof.
  intros Hm He. destruct (Qlt_le_dec mass e) as [Hlt|Hge].
  - exists 1. split; lra.
  - exists (e / mass).
    assert (Hq : 0 < e / mass).
    { apply Qlt_shift_div_l; lra. }
    assert (Hq1 : e / mass <= 1).
    { apply Qle_shift_div_r; lra. }
    assert (Heq : mass * (e / mass * (e / mass)) == e * (e / mass))
      by (field; lra).
    assert (Hle : e * (e / mass) <= e * 1).
    { apply Qmult_le_l; assumption. }
    split; [exact Hq|]. lra.
Qed.

(** ** Every call of the loop halts *)

Ltac fields :=
  cbn [m1 m2 x1 x2 w1 w2 v1 v2 collisions finished
       moved bounced set_x1 set_x2 set_v1 set_v2 set_collisions
       set_finished fst snd] in *.

Lemma moved_energy (t : Q) (s : PhysicsEngine) :
  energy (moved t s) = energy s.
Proof. reflexivity. Qed.

Lemma moved_momentum (t : Q) (s : PhysicsEngine) :
  momentum (moved t s) = momentum s.
Proof. reflexivity. Qed.

(** An iteration that resolves nothing is the last one. *)
Lemma coast_halts (rem : Q) (s : PhysicsEngine) :
  0 < rem -> Ret (0, []) (moved rem s) = loop_body rem s ->
  loop_halts rem s.
Proof.
  intros Hpos Hb. eapply halts_iter; [exact Hpos|symmetry; exact Hb|].
  apply halts_exit. simpl. lra.
Qed.

(** From a state in which the large block is not closing in: at most [n]
    rounds of a wall hit followed by a block hit can follow when the
    momentum is within [n] steps of [2 m2 c] from its bound [b]. *)
Lemma receding_halts (c b : Q) (n : nat) :
  0 < c -> 0 <= b ->
  forall s rem,
    0 < m1 s -> 0 < m2 s ->
    v2 s <= v1 s ->
    (m1 s + m2 s) * (c * c) <= energy s ->
    (m1 s + m2 s) * energy s <= b * b ->
    b - momentum s < 2 * m2 s * c * inject_Z (Z.of_nat n) ->
    loop_halts rem s.
Proof.
  intros Hc Hb. induction n as [|n IH]; intros s rem Hm1 Hm2 Hv He Hbb Hn.
  - exfalso. pose proof (momentum_le_bound s b) as Hp.
    change (inject_Z (Z.of_nat 0)) with 0 in Hn.
    assert (momentum s <= b) by (apply Hp; lra). lra.
  - destruct (Qlt_le_dec 0 rem) as [Hpos|Hneg]; [|now apply halts_exit].
    pose proof (loop_body_cases rem s) as Hcase.
    inversion Hcase as [Hw Hk Hbody|Hw Ht Hk Hbody|t Hk|t Hk]; try lra.
    + now apply coast_halts.
    + (* wall hit *)
      eapply halts_iter; [exact Hpos|symmetry; exact Hbody|]. fields.
      set (s1 := bounced (moved (wall_time s) s)).
      set (rem1 := rem - wall_time s).
      destruct (Qlt_le_dec 0 rem1) as [Hpos1|Hneg1]; [|now apply halts_exit].
      pose proof (loop_body_cases rem1 s1) as Hcase1.
      assert (Hv2 : v2 s1 == - v2 s) by (subst s1; fields; ring).
      assert (Hv1 : v1 s1 == v1 s) by reflexivity.
      inversion Hcase1
        as [Hw1 Hk1 Hbody1|Hw1 Ht1 Hk1 Hbody1
            |t Hk1 Ht1 Hr1 Hw1 Hm Hbody1|t Hk1 Ht1 Hr1 Hw1 Hm Hbody1];
        try lra.
      * now apply coast_halts.
      * (* block hit: one round done *)
        eapply halts_iter; [exact Hpos1|symmetry; exact Hbody1|]. fields.
        set (s2 := collided (moved t s1)).
        assert (Hm' : ~ m1 (moved t s1) + m2 (moved t s1) == 0) by exact Hm.
        pose proof (collided_relative _ Hm') as Hrel.
        pose proof (collided_energy _ Hm') as Hen.
        pose proof (collided_momentum _ Hm') as Hmo.
        rewrite moved_energy in Hen. rewrite moved_momentum in Hmo.
        pose proof (bounced_energy (moved (wall_time s) s)) as Hen1.
        pose proof (bounced_momentum (moved (wall_time s) s)) as Hmo1.
        rewrite moved_energy in Hen1. rewrite moved_momentum in Hmo1.
        fold s1 in Hen, Hmo, Hen1, Hmo1. fold s2 in Hrel, Hen, Hmo.
        change (v1 (moved t s1)) with (v1 s1) in Hrel.
        change (v2 (moved t s1)) with (v2 s1) in Hrel.
        change (m2 (moved (wall_time s) s)) with (m2 s) in Hmo1.
        change (v2 (moved (wall_time s) s)) with (v2 s) in Hmo1.
        assert (Hspeed : c <= - v2 s).
        { apply (rebound_speed (m1 s) (m2 s) (v1 s) (v2 s) c); auto; lra. }
        assert (Hstep : 2 * m2 s * c <= 2 * m2 s * - v2 s).
        { apply Qmult_le_l; lra. }
        rewrite of_nat_succ in Hn.
        apply IH.
        -- exact Hm1.
        -- exact Hm2.
        -- lra.
        -- change (m1 s2) with (m1 s). change (m2 s2) with (m2 s).
           rewrite Hen, Hen1. exact He.
        -- change (m1 s2) with (m1 s). change (m2 s2) with (m2 s).
           rewrite Hen, Hen1. exact Hbb.
        -- change (m2 s2) with (m2 s). rewrite Hmo, Hmo1. lra.
      * exfalso.
        change (m1 s1) with (m1 s) in Hm. change (m2 s1) with (m2 s) in Hm.
        lra.
Qed.

Lemma receding_halts_any (s : PhysicsEngine) (rem : Q) :
  0 < m1 s -> 0 < m2 s -> v2 s <= v1 s -> loop_halts rem s.
Proof.
  intros Hm1 Hm2 Hv.
  destruct (Qlt_le_dec 0 (energy s)) as [He|He].
  - destruct (speed_bound_exists (m1 s + m2 s) (energy s)) as [c [Hc Hce]];
      [lra|exact He|].
    set (k := (m1 s + m2 s) * energy s).
    assert (Hk : 0 <= k).
    { apply Qmult_le_0_compat; lra. }
    destruct (nat_multiple_above (1 + k - momentum s) (2 * m2 s * c))
      as [n Hn].
    { apply Qmult_lt_0_compat; lra. }
    apply (receding_halts c (1 + k) n); auto; try lra.
    fold k. pose proof (Qsq_nonneg k). lra.
  - destruct (Qlt_le_dec 0 rem) as [Hpos|Hneg]; [|now apply halts_exit].
    pose proof (loop_body_cases rem s) as Hcase.
    inversion Hcase as [Hw Hk Hbody|Hw Ht Hk Hbody|t Hk|t Hk]; try lra.
    + now apply coast_halts.
    + pose proof (energy_pos s). lra.
Qed.

(** After a block hit the large block is the faster one. *)
Lemma collided_receding (s : PhysicsEngine) :
  ~ m1 s + m2 s == 0 -> v1 s < v2 s ->
  v2 (collided s) < v1 (collided s).
Proof.
  intros Hm Hv. pose proof (collided_relative s Hm). lra.
Qed.

Lemma after_block_halts (s : PhysicsEngine) (t rem : Q) :
  0 < m1 s -> 0 < m2 s -> v1 s < v2 s ->
  loop_halts rem (collided (moved t s)).
Proof.
  intros Hm1 Hm2 Hv. apply receding_halts_any; try assumption.
  apply Qlt_le_weak. apply collided_receding.
  - change (~ m1 s + m2 s == 0). lra.
  - exact Hv.
Qed.

Lemma small_receding_halts (s : PhysicsEngine) (rem : Q) :
  0 < m1 s -> 0 < m2 s -> 0 <= v2 s -> loop_halts rem s.
Proof.
  intros Hm1 Hm2 Hv.
  destruct (Qlt_le_dec 0 rem) as [Hpos|Hneg]; [|now apply halts_exit].
  pose proof (loop_body_cases rem s) as Hcase.
  inversion Hcase
    as [Hw Hk Hbody|Hw Ht Hk Hbody
       |t Hk Ht Hr Hw Hm Hbody|t Hk Ht Hr Hw Hm Hbody];
    try lra.
  - now apply coast_halts.
  - eapply halts_iter; [exact Hpos|symmetry; exact Hbody|].
    now apply after_block_halts.
Qed.

(** The loop halts from every state with positive masses, whatever the
    positions and the time budget. *)
Lemma loop_always_halts (s : PhysicsEngine) (rem : Q) :
  0 < m1 s -> 0 < m2 s -> loop_halts rem s.
Proof.
  intros Hm1 Hm2.
  destruct (Qlt_le_dec 0 rem) as [Hpos|Hneg]; [|now apply halts_exit].
  pose proof (loop_body_cases rem s) as Hcase.
  inversion Hcase
    as [Hw Hk Hbody|Hw Ht Hk Hbody
       |t Hk Ht Hr Hw Hm Hbody|t Hk Ht Hr Hw Hm Hbody];
    try lra.
  - now apply coast_halts.
  - eapply halts_iter; [exact Hpos|symmetry; exact Hbody|].
    apply small_receding_halts; try assumption. fields. lra.
  - eapply halts_iter; [exact Hpos|symmetry; exact Hbody|].
    now apply after_block_halts.
Qed.

(** With positive masses no iteration raises. *)
Lemma loop_body_no_raise_exact (rem : Q) (s : PhysicsEngine) :
  0 < m1 s -> 0 < m2 s ->
  exists r s', loop_body rem s = Ret r s' /\ m1 s' = m1 s /\ m2 s' = m2 s.
Proof.
  intros Hm1 Hm2. pose proof (loop_body_cases rem s) as Hcase.
  inversion Hcase
    as [Hw Hk Hbody|Hw Ht Hk Hbody
       |t Hk Ht Hr Hw Hm Hbody|t Hk Ht Hr Hw Hm Hbody];
    try lra; eauto.
Qed.

(** ** Positions: no tunneling *)

Lemma wall_time_nonneg (s : PhysicsEngine) :
  v2 s < 0 -> 0 <= x2 s -> 0 <= wall_time s.
Proof.
  intros Hv Hx. pose proof (wall_time_eq s Hv) as He.
  destruct (Qlt_le_dec (wall_time s) 0) as [Hlt|Hge]; [|exact Hge].
  exfalso.
  assert (H : 0 < (- wall_time s) * (- v2 s)).
  { apply Qmult_lt_0_compat; lra. }
  lra.
Qed.

Lemma wall_time_pos (s : PhysicsEngine) :
  v2 s < 0 -> 0 < x2 s -> 0 < wall_time s.
Proof.
  intros Hv Hx. pose proof (wall_time_eq s Hv) as He.
  destruct (Qlt_le_dec 0 (wall_time s)) as [Hlt|Hge]; [exact Hlt|].
  exfalso.
  assert (H : 0 <= (- wall_time s) * (- v2 s)).
  { apply Qmult_le_0_compat; lra. }
  lra.
Qed.

Lemma block_time_nonneg (s : PhysicsEngine) :
  v1 s < v2 s -> x2 s + w2 s <= x1 s -> 0 <= block_time s.
Proof.
  intros Hv Hx. pose proof (block_time_eq s Hv) as He.
  destruct (Qlt_le_dec (block_time s) 0) as [Hlt|Hge]; [|exact Hge].
  exfalso.
  assert (H : 0 < (- block_time s) * (v2 s - v1 s)).
  { apply Qmult_lt_0_compat; lra. }
  lra.
Qed.

Lemma block_time_pos (s : PhysicsEngine) :
  v1 s < v2 s -> x2 s + w2 s < x1 s -> 0 < block_time s.
Proof.
  intros Hv Hx. pose proof (block_time_eq s Hv) as He.
  destruct (Qlt_le_dec 0 (block_time s)) as [Hlt|Hge]; [exact Hlt|].
  exfalso.
  assert (H : 0 <= (- block_time s) * (v2 s - v1 s)).
  { apply Qmult_le_0_compat; lra. }
  lra.
Qed.

(** Moving the blocks for a time [t] that ends no later than the next
    wall hit and the next block hit keeps them separated. *)
Lemma moved_separated (t : Q) (s : PhysicsEngine) :
  separated s -> 0 <= t ->
  (v2 s < 0 -> t <= wall_time s) ->
  (v1 s < v2 s -> t <= block_time s) ->
  separated (moved t s).
Proof.
  intros [Hx Hg] Ht Hw Hb. unfold separated. fields. split.
  - destruct (Qlt_le_dec (v2 s) 0) as [Hv|Hv].
    + pose proof (wall_time_eq s Hv) as He. specialize (Hw Hv).
      assert (H : 0 <= (wall_time s - t) * (- v2 s)).
      { apply Qmult_le_0_compat; lra. }
      lra.
    + pose proof (Qmult_le_0_compat _ _ Hv Ht). lra.
  - destruct (Qlt_le_dec (v1 s) (v2 s)) as [Hv|Hv].
    + pose proof (block_time_eq s Hv) as He. specialize (Hb Hv).
      assert (H : 0 <= (block_time s - t) * (v2 s - v1 s)).
      { apply Qmult_le_0_compat; lra. }
      lra.
    + assert (H : 0 <= (v1 s - v2 s) * t).
      { apply Qmult_le_0_compat; lra. }
      lra.
Qed.

Lemma loop_body_separated (rem : Q) (s : PhysicsEngine) :
  0 < rem -> separated s ->
  after separated (fun r => Forall (fun _ => True) (snd r))
        (fun _ s' => separated s') (loop_body rem s).
Proof.
  intros Hpos Hs. pose proof Hs as [Hx Hg].
  pose proof (loop_body_cases rem s) as Hcase.
  inversion Hcase
    as [Hw Hk Hbody|Hw Ht Hk Hbody
       |t Hk Ht Hr Hw Hm Hbody|t Hk Ht Hr Hw Hm Hbody];
    simpl.
  - split; [|constructor].
    apply moved_separated;
      [exact Hs|lra|intro H; specialize (Hw H); lra
      |intro H; specialize (Hk H); lra].
  - split; [|repeat constructor].
    apply (moved_separated (wall_time s) s);
      [exact Hs|now apply wall_time_nonneg|intro H; lra
      |intro H; specialize (Hk H); lra].
  - split; [|repeat constructor].
    pose proof (block_time_nonneg s Hk Hg).
    apply (moved_separated t s); [exact Hs|lra|exact Hw|intro; lra].
  - pose proof (block_time_nonneg s Hk Hg).
    apply (moved_separated t s); [exact Hs|lra|exact Hw|intro; lra].
Qed.

(** ** Total correctness of the loop and of [step] *)

Section TotalCorrectness.
Variable I : PhysicsEngine -> Prop.
Variable P : event -> Prop.

Hypothesis positive_masses : forall s, I s -> 0 < m1 s /\ 0 < m2 s.
Hypothesis body_keeps :
  forall rem s, 0 < rem -> I s ->
    after I (fun r => Forall P (snd r)) (fun _ _ => True)
          (loop_body rem s).

Lemma body_keeps_no_raise (rem : Q) (s : PhysicsEngine) :
  0 < rem -> I s ->
  after I (fun r => Forall P (snd r)) (fun _ _ => False)
        (loop_body rem s).
Proof.
  intros Hpos Hs. pose proof (body_keeps rem s Hpos Hs) as Hk.
  destruct (positive_masses s Hs) as [Hm1 Hm2].
  destruct (loop_body_no_raise_exact rem s Hm1 Hm2) as [r [s' [Hb _]]].
  rewrite Hb in *. exact Hk.
Qed.

Lemma while_loop_total (rem : Q) (s : PhysicsEngine) :
  I s ->
  exists n log s',
    (forall fuel, (n <= fuel)%nat -> while_loop fuel rem s = Ret log s')
    /\ I s' /\ Forall P log.
Proof.
  intro Hs. destruct (positive_masses s Hs) as [Hm1 Hm2].
  destruct (loop_halts_fuel rem s (loop_always_halts s rem Hm1 Hm2))
    as [n [Hn Hsame]].
  pose proof (while_loop_keeps_exact I P (fun _ _ => False)
                body_keeps_no_raise n rem s Hs) as Hk.
  destruct (while_loop n rem s) as [log s'|e s'|] eqn:Hrun;
    simpl in Hk; try contradiction.
  exists n, log, s'. split; [exact Hsame|exact Hk].
Qed.

Lemma step_total (dt : Q) (s : PhysicsEngine) :
  I s ->
  exists n log s',
    (forall fuel, (n <= fuel)%nat ->
       step fuel dt s = Ret log (mark_finished s'))
    /\ I s' /\ Forall P log.
Proof.
  intro Hs. destruct (while_loop_total dt s Hs) as [n [log [s' [Hrun Hk]]]].
  exists n, log, s'. split; [|exact Hk].
  intros fuel Hle. rewrite step_run_exact, (Hrun fuel Hle). reflexivity.
Qed.
End TotalCorrectness.

(** ** The block resolution

    In exact arithmetic, for all
    pre-collision velocities [v1 s], [v2 s] and every mass [m1 s > 0]
    with [m2 s] equal to 1, the resolution returns, its two new
    velocities are the elastic-collision formulas evaluated on the
    pre-collision velocities, and total momentum and total kinetic
    energy are conserved exactly ([==] is equality of rational
    numbers). *)
Theorem block_formulas_conserve (s : PhysicsEngine) :
  0 < m1 s -> m2 s == 1 ->
  exists s',
    resolve_block_collision s = Ret tt s' /\
    v1 s' == ((m1 s - m2 s) * v1 s + 2 * m2 s * v2 s) / (m1 s + m2 s) /\
    v2 s' == ((m2 s - m1 s) * v2 s + 2 * m1 s * v1 s) / (m1 s + m2 s) /\
    m1 s' * v1 s' + m2 s' * v2 s' == m1 s * v1 s + m2 s * v2 s /\
    m1 s' * (v1 s' * v1 s') + m2 s' * (v2 s' * v2 s') ==
    m1 s * (v1 s * v1 s) + m2 s * (v2 s * v2 s).
Proof.
  intros Hm1 Hm2.
  assert (Hm : ~ m1 s + m2 s == 0) by lra.
  exists (collided s). split; [|split; [|split; [|split]]].
  - now apply resolve_block_collision_run_exact.
  - rewrite collided_v1. reflexivity.
  - rewrite collided_v2. reflexivity.
  - exact (collided_momentum s Hm).
  - exact (collided_energy s Hm).
Qed.



Lemma mark_finished_rest_exact (s : PhysicsEngine) :
  m1 (mark_finished s) = m1 s /\ m2 (mark_finished s) = m2 s /\
  x1 (mark_finished s) = x1 s /\ x2 (mark_finished s) = x2 s /\
  w1 (mark_finished s) = w1 s /\ w2 (mark_finished s) = w2 s /\
  v1 (mark_finished s) = v1 s /\ v2 (mark_finished s) = v2 s /\
  collisions (mark_finished s) = collisions s.
Proof.
  unfold mark_finished. destruct (terminal s); repeat split.
Qed.

(** ** Every call returns *)

Lemma step_left_in (fuel : nat) (dt : Q) (s s' : PhysicsEngine) :
  left_in (step fuel dt s) = Some s' ->
  exists s1,
    left_in (while_loop fuel dt s) = Some s1 /\
    (s' = s1 \/ s' = mark_finished s1).
Proof.
  rewrite step_run_exact.
  destruct (while_loop fuel dt s) as [log s1|e s1|]; simpl; intro E;
    inversion E; subst; eauto.
Qed.

(** [step] returns from every state with positive masses. *)
Lemma step_returns (dt : Q) (s : PhysicsEngine) :
  0 < m1 s -> 0 < m2 s ->
  exists n log s',
    forall fuel, (n <= fuel)%nat -> step fuel dt s = Ret log s'.
Proof.
  intros Hm1 Hm2.
  destruct (step_total (fun s' => 0 < m1 s' /\ 0 < m2 s') (fun _ => True))
    with (dt := dt) (s := s) as [n [log [s' [Hrun _]]]].
  - tauto.
  - intros rem s1 _ [H1 H2].
    destruct (loop_body_no_raise_exact rem s1 H1 H2) as [r [s2 [Hb [E1 E2]]]].
    rewrite Hb. simpl. rewrite E1, E2. repeat split; try assumption.
    apply Forall_forall. intros; exact I.
  - tauto.
  - exists n, log, (mark_finished s'). exact Hrun.
Qed.

Lemma create_inr (mass velocity : Q) (s : PhysicsEngine) :
  create mass velocity = inr s -> 0 < mass /\ s = init mass velocity.
Proof.
  unfold create. destruct (Qle_bool mass 0) eqn:E; [discriminate|].
  intro H. inversion H. order_hyps. auto.
Qed.

(** ** No tunneling *)

Lemma separated_mark_finished (s : PhysicsEngine) :
  separated s -> separated (mark_finished s).
Proof.
  unfold separated.
  destruct (mark_finished_rest_exact s) as [_ [_ [R1 [R2 [_ [R3 _]]]]]].
  now rewrite R1, R2, R3.
Qed.

(** Separation survives a call however it ends, whatever the masses. *)
Lemma while_loop_separated (fuel : nat) (rem : Q) (s s' : PhysicsEngine) :
  separated s -> left_in (while_loop fuel rem s) = Some s' -> separated s'.
Proof.
  intro Hs.
  pose proof (while_loop_keeps_exact separated (fun _ => True)
                (fun _ => separated) loop_body_separated
                fuel rem s Hs) as Hk.
  destruct (while_loop fuel rem s); simpl in *; intro E;
    inversion E; subst; tauto.
Qed.

Lemma step_separated (fuel : nat) (dt : Q) (s s' : PhysicsEngine) :
  separated s -> left_in (step fuel dt s) = Some s' -> separated s'.
Proof.
  intros Hs Hs'. destruct (step_left_in _ _ _ _ Hs') as [s1 [H1 Hor]].
  apply (while_loop_separated _ _ _ _ Hs) in H1.
  destruct Hor as [->| ->]; [exact H1|].
  now apply separated_mark_finished.
Qed.

Lemma valid_masses (s : PhysicsEngine) : valid s -> 0 < m1 s /\ 0 < m2 s.
Proof. unfold valid. tauto. Qed.

Lemma loop_body_valid (rem : Q) (s : PhysicsEngine) :
  0 < rem -> valid s ->
  after valid (fun r => Forall (fun e => 0 <= event_time e) (snd r))
        (fun _ _ => True) (loop_body rem s).
Proof.
  intros Hpos [Hm1 [Hm2 Hs]].
  pose proof (loop_body_separated rem s Hpos Hs) as Hsep.
  pose proof Hs as [Hx Hg].
  pose proof (loop_body_cases rem s) as Hcase.
  inversion Hcase
    as [Hw Hk Hbody|Hw Ht Hk Hbody
       |t Hk Ht Hr Hw Hm Hbody|t Hk Ht Hr Hw Hm Hbody];
    rewrite <- Hbody in Hsep; simpl in *; try exact I;
    (split; [split; [exact Hm1|split; [exact Hm2|tauto]]|]).
  - constructor.
  - constructor; [|constructor]. simpl. now apply wall_time_nonneg.
  - constructor; [|constructor]. simpl.
    pose proof (block_time_nonneg s Hk Hg). lra.
Qed.



(** ** Progress: the time to a resolved event *)

(** The log of a call counts what the code counts in [collisions]. *)
Lemma loop_body_counts_exact (rem : Q) (s : PhysicsEngine) r s' :
  loop_body rem s = Ret r s' ->
  collisions s' = (collisions s + Z.of_nat (length (snd r)))%Z.
Proof.
  intro Hbody. pose proof (loop_body_cases rem s) as Hcase.
  rewrite Hbody in Hcase.
  inversion Hcase; subst; simpl; lia.
Qed.

Lemma while_loop_counts_exact (fuel : nat) :
  forall rem s log s',
    while_loop fuel rem s = Ret log s' ->
    collisions s' = (collisions s + Z.of_nat (length log))%Z.
Proof.
  induction fuel as [|fuel IH]; intros rem s log s' Hrun.
  - simpl in Hrun. destruct (Qlt_bool 0 rem); [discriminate|].
    inversion Hrun; subst. simpl. lia.
  - destruct (Qlt_le_dec 0 rem) as [Hpos|Hneg].
    + rewrite while_loop_iter_exact in Hrun by exact Hpos.
      destruct (loop_body rem s) as [r s1|e s1|] eqn:Hb; try discriminate.
      destruct (while_loop fuel (fst r) s1) as [rest s2|e s2|] eqn:E;
        try discriminate.
      inversion Hrun; subst.
      rewrite (IH _ _ _ _ E), (loop_body_counts_exact _ _ _ _ Hb).
      rewrite length_app, Nat2Z.inj_add. lia.
    + rewrite while_loop_exit_exact in Hrun by exact Hneg.
      inversion Hrun; subst. simpl. lia.
Qed.

Lemma step_counts_exact (fuel : nat) (dt : Q) (s : PhysicsEngine) log s' :
  step fuel dt s = Ret log s' ->
  collisions s' = (collisions s + Z.of_nat (length log))%Z.
Proof.
  rewrite step_run_exact.
  destruct (while_loop fuel dt s) as [l s1|e s1|] eqn:E; try discriminate.
  intro H. inversion H; subst.
  destruct (mark_finished_rest_exact s1) as [_ [_ [_ [_ [_ [_ [_ [_ R]]]]]]]].
  rewrite R. exact (while_loop_counts_exact _ _ _ _ _ E).
Qed.

Lemma poised_masses (s : PhysicsEngine) : poised s -> 0 < m1 s /\ 0 < m2 s.
Proof. unfold poised, valid. tauto. Qed.

Lemma loop_body_poised (rem : Q) (s : PhysicsEngine) :
  0 < rem -> poised s ->
  after poised (fun r => Forall (fun e => 0 < event_time e) (snd r))
        (fun _ _ => True) (loop_body rem s).
Proof.
  intros Hpos [Hv [Hwall [Hblock Hboth]]].
  pose proof (loop_body_valid rem s Hpos Hv) as Hval.
  destruct Hv as [Hm1 [Hm2 [Hx Hg]]].
  pose proof (loop_body_cases rem s) as Hcase.
  inversion Hcase
    as [Hw Hk Hbody|Hw Ht Hk Hbody
       |t Hk Ht Hr Hw Hm Hbody|t Hk Ht Hr Hw Hm Hbody];
    rewrite <- Hbody in Hval; simpl in Hval; simpl; try exact I;
    destruct Hval as [Hval _].
  - (* no event *)
    split; [|constructor]. split; [exact Hval|]. fields.
    split; [|split; [|exact Hboth]].
    + destruct (Qlt_le_dec (v2 s) 0) as [Hneg|Hnn].
      * left. pose proof (wall_time_eq s Hneg). specialize (Hw Hneg).
        assert (H0 : 0 < (wall_time s - rem) * (- v2 s))
          by (apply Qmult_lt_0_compat; lra).
        lra.
      * destruct Hwall as [Hwall|Hwall]; [left|right; exact Hwall].
        pose proof (Qmult_le_0_compat _ _ Hnn (Qlt_le_weak _ _ Hpos)). lra.
    + destruct (Qlt_le_dec (v1 s) (v2 s)) as [Hcl|Hop].
      * left. pose proof (block_time_eq s Hcl). specialize (Hk Hcl).
        assert (H0 : 0 < (block_time s - rem) * (v2 s - v1 s))
          by (apply Qmult_lt_0_compat; lra).
        lra.
      * destruct Hblock as [Hblock|Hblock]; [left|right; exact Hblock].
        assert (H0 : 0 <= (v1 s - v2 s) * rem)
          by (apply Qmult_le_0_compat; lra).
        lra.
  - (* wall hit *)
    assert (Hx2 : 0 < x2 s) by (destruct Hwall; lra).
    pose proof (wall_time_pos s Hw Hx2) as Htpos.
    split; [|constructor; [exact Htpos|constructor]].
    split; [exact Hval|]. fields.
    split; [right; lra|split; [|left; lra]].
    assert (Hop : v2 s <= v1 s) by (destruct Hboth; lra).
    left. destruct Hblock as [Hblock|Hblock].
    + assert (H0 : 0 <= (v1 s - v2 s) * wall_time s)
        by (apply Qmult_le_0_compat; lra).
      lra.
    + assert (H0 : 0 < (v1 s - v2 s) * wall_time s)
        by (apply Qmult_lt_0_compat; lra).
      lra.
  - (* block hit *)
    assert (Hnn : 0 <= v2 s) by (destruct Hboth; lra).
    assert (Hgap : x2 s + w2 s < x1 s) by (destruct Hblock; lra).
    pose proof (block_time_pos s Hk Hgap) as Htpos.
    assert (Hm' : ~ m1 (moved t s) + m2 (moved t s) == 0) by exact Hm.
    assert (Hrec : v2 (collided (moved t s)) < v1 (collided (moved t s)))
      by (apply collided_receding; [exact Hm'|exact Hk]).
    split; [|constructor; [simpl; lra|constructor]].
    split; [exact Hval|].
    split; [|split; [right; exact Hrec|right; lra]].
    left. change (0 < x2 s + v2 s * t).
    destruct Hwall as [Hwall|Hwall].
    + assert (H0 : 0 <= v2 s * t) by (apply Qmult_le_0_compat; lra).
      lra.
    + assert (H0 : 0 < v2 s * t) by (apply Qmult_lt_0_compat; lra).
      lra.
Qed.

Lemma poised_mark_finished (s : PhysicsEngine) :
  poised s -> poised (mark_finished s).
Proof.
  unfold poised, valid, separated.
  destruct (mark_finished_rest_exact s)
    as [R1 [R2 [R3 [R4 [_ [R5 [R6 [R7 _]]]]]]]].
  now rewrite R1, R2, R3, R4, R5, R6, R7.
Qed.

Lemma reachable_poised (s : PhysicsEngine) : reachable s -> poised s.
Proof.
  induction 1 as [mass velocity s Hc|s fuel dt log s' _ IH Hrun].
  - apply create_inr in Hc. destruct Hc as [Hm ->].
    unfold poised, valid, separated. simpl.
    repeat split;
      first [exact Hm|reflexivity|discriminate
            |left; reflexivity|left; discriminate].
  - rewrite step_run_exact in Hrun.
    pose proof (while_loop_keeps_exact poised (fun e => 0 < event_time e)
                  (fun _ _ => True) loop_body_poised fuel dt s IH) as Hk.
    destruct (while_loop fuel dt s) as [l s1|e s1|]; try discriminate.
    inversion Hrun; subst. apply poised_mark_finished. exact (proj1 Hk).
Qed.



End ExactArithmetic.

(** * Block resolution: the code and its formulas *)



(** * Further properties of the code *)

(** ** The collision count *)

(** X4.  The collision count never decreases in a call of [step], however
    the call ends; when the call returns it has grown by exactly the
    number of collisions the call resolved; and it is never negative in a
    state reachable from a construction. *)
Theorem step_count_grows (dt : float) (s : PhysicsEngine) :
  (forall fuel s',
     left_in (step fuel dt s) = Some s' ->
     (collisions s <= collisions s')%Z) /\
  (forall fuel log s',
     step fuel dt s = Ret log s' ->
     collisions s' = (collisions s + Z.of_nat (length log))%Z) /\
  (reachable s -> (0 <= collisions s)%Z).
Proof.
  split; [|split].
  - intros fuel s' H. pose proof (step_evolves fuel dt s) as He.
    destruct (step fuel dt s) as [l a|e a|]; simpl in *;
      inversion H; subst; unfold evolves in He; tauto.
  - intros fuel log s'. apply step_counts.
  - intro Hr. apply reachable_sound in Hr. unfold sound in Hr. tauto.
Qed.

Lemma step_count_grows_witness :
  reachable fresh /\ (0 <= collisions fresh)%Z.
Proof.
  assert (Hr : reachable fresh).
  { apply (reach_create 100 (-100)). reflexivity. }
  split; [exact Hr|].
  exact (proj2 (proj2 (step_count_grows 1 fresh)) Hr).
Defined.

(** ** The constants *)

(** X5.  [step] never assigns to the masses or the widths: however a call
    ends they are those before the call.  So every state reachable from
    a construction has a large mass that passed the check of
    [reset_simulation] (it is not [<= 0], hence positive unless it is
    NaN), small mass 1, and the widths 150 and 50 set by [__init__]. *)
Theorem step_keeps_constants (s : PhysicsEngine) :
  (forall fuel dt s',
     left_in (step fuel dt s) = Some s' ->
     m1 s' = m1 s /\ m2 s' = m2 s /\ w1 s' = w1 s /\ w2 s' = w2 s) /\
  (reachable s ->
   (m1 s <=? 0) = false /\ (m1 s <> nan -> 0 < m1 s) /\
   m2 s = 1 /\ w1 s = 150 /\ w2 s = 50).
Proof.
  split.
  - intros fuel dt s' H. pose proof (step_evolves fuel dt s) as He.
    destruct (step fuel dt s) as [l a|e a|]; simpl in *;
      inversion H; subst; unfold evolves in He; tauto.
  - intro Hr. apply reachable_sound in Hr.
    destruct Hr as (Hm & Hm2 & Hw1 & Hw2 & _).
    repeat (split; [assumption|]). split; [|auto].
    intro Hn. destruct (leb_false_cases _ Hm) as [H|H];
      [exact H|contradiction].
Qed.

Lemma step_keeps_constants_witness :
  reachable fresh /\
  (m1 fresh <=? 0) = false /\ (m1 fresh <> nan -> 0 < m1 fresh) /\
  m2 fresh = 1 /\ w1 fresh = 150 /\ w2 fresh = 50.
Proof.
  assert (Hr : reachable fresh).
  { apply (reach_create 100 (-100)). reflexivity. }
  split; [exact Hr|].
  exact (proj2 (step_keeps_constants fresh) Hr).
Defined.

(** ** Free flight *)



(** ** The [finished] flag tells the truth *)

(** X8.  After every returning call of [step] on a state reachable from a
    construction, [finished] is true exactly when both velocities are
    non-negative and the large block is at least as fast as the small
    one. *)
Theorem finished_iff_terminal
  (fuel : nat) (dt : float) (s : PhysicsEngine) log (s' : PhysicsEngine) :
  reachable s -> real_dt dt -> step fuel dt s = Ret log s' ->
  (finished s' = true <-> 0 <= v1 s' /\ 0 <= v2 s' /\ v2 s' <= v1 s').
Proof.
  intros Hr Hdt Hrun. rewrite <- terminal_iff. split.
  - pose proof (reachable_sound s' (reach_step s fuel dt log s' Hr Hdt Hrun))
      as Hs. unfold sound in Hs. tauto.
  - intro Ht. rewrite step_run in Hrun.
    destruct (while_loop fuel dt s) as [l s1|e s1|]; try discriminate.
    inversion Hrun; subst.
    rewrite terminal_mark_finished in Ht.
    rewrite mark_finished_flag, Ht. apply orb_true_r.
Qed.

Lemma finished_iff_terminal_witness :
  reachable departing /\ real_dt 0 /\
  step 0 0 departing = Ret [] coasting /\
  (finished coasting = true <->
   0 <= v1 coasting /\ 0 <= v2 coasting /\ v2 coasting <= v1 coasting).
Proof.
  assert (Hr : reachable departing).
  { apply (reach_create 100 5). reflexivity. }
  assert (Hz : real_dt 0).
  { intro H. apply (f_equal Prim2SF) in H. discriminate. }
  assert (Hrun : step 0 0 departing = Ret [] coasting) by reflexivity.
  repeat (split; [assumption|]).
  exact (finished_iff_terminal 0 0 departing [] coasting Hr Hz Hrun).
Defined.

(** ** The animation *)

Lemma frame_dt_real : real_dt frame_dt.
Proof.
  intro H. apply (f_equal Prim2SF) in H. vm_compute in H. discriminate.
Qed.

(** One tick on a sound engine returns or runs out of fuel. *)
Lemma animate_sound (fuel : nat) (e : PhysicsEngine) (shown : bool) :
  reachable e ->
  animate fuel {| engine := Some e; error_shown := shown |} = AppOutOfFuel \/
  exists e',
    animate fuel {| engine := Some e; error_shown := shown |} =
    AppRet {| engine := Some e'; error_shown := shown |} /\
    reachable e' /\ later e e'.
Proof.
  intro Hr. unfold animate. cbn [engine error_shown].
  pose proof (reachable_sound e Hr) as (Hm & Hm2 & _).
  pose proof (step_no_raise fuel frame_dt e Hm Hm2) as Hn.
  destruct (step fuel frame_dt e) as [log e'|x e'|] eqn:Hrun.
  - right. exists e'. split; [reflexivity|split].
    + exact (reach_step e fuel frame_dt log e' Hr frame_dt_real Hrun).
    + exact (later_call real_dt e fuel frame_dt log e' e'
               frame_dt_real Hrun (later_now real_dt e')).
  - exfalso. exact (Hn x e' eq_refl).
  - left. reflexivity.
Qed.

Lemma animate_n_sound (fuel k : nat) :
  forall (e : PhysicsEngine) (shown : bool),
    reachable e ->
    animate_n fuel k {| engine := Some e; error_shown := shown |}
    = AppOutOfFuel \/
    exists e',
      animate_n fuel k {| engine := Some e; error_shown := shown |} =
      AppRet {| engine := Some e'; error_shown := shown |} /\
      reachable e' /\ later e e'.
Proof.
  induction k as [|k IH]; intros e shown Hr.
  - right. exists e. split; [reflexivity|split; [exact Hr|]].
    apply later_now.
  - cbn [animate_n].
    destruct (animate_sound fuel e shown Hr) as [H|[e1 [H [Hr1 Hl1]]]];
      rewrite H; [left; reflexivity|].
    destruct (IH e1 shown Hr1) as [H2|[e2 [H2 [Hr2 Hl2]]]];
      rewrite H2; [left; reflexivity|].
    right. exists e2. split; [reflexivity|split; [exact Hr2|]].
    exact (later_trans real_dt e e1 e2 Hl1 Hl2).
Qed.

Lemma animate_n_no_engine (fuel k : nat) (shown : bool) :
  animate_n fuel k {| engine := None; error_shown := shown |} =
  AppRet {| engine := None; error_shown := shown |}.
Proof. induction k as [|k IH]; [reflexivity|exact IH]. Qed.

(** X13.  The animation is never killed by an exception.  When the
    application holds no engine, any number of ticks of [animate] return
    and leave it so.  When it holds an engine in a state reachable from
    a construction, no tick raises: the ticks that complete leave the
    error flag untouched and an engine in a state reachable by calls of
    [step].  (Whether the loop of every tick ends is not settled here:
    [AppOutOfFuel] stands for a tick that used up the fuel given.) *)
Theorem animation_never_stops (fuel k : nat) (app : App) :
  (forall e, engine app = Some e -> reachable e) ->
  (engine app = None -> animate_n fuel k app = AppRet app) /\
  (forall x app', animate_n fuel k app <> AppRaise x app') /\
  (forall app', animate_n fuel k app = AppRet app' ->
     error_shown app' = error_shown app /\
     forall e, engine app = Some e ->
       exists e', engine app' = Some e' /\ reachable e' /\ later e e').
Proof.
  intro Hr. destruct app as [[e|] shown]; cbn [engine error_shown] in *.
  - specialize (Hr e eq_refl).
    destruct (animate_n_sound fuel k e shown Hr) as [H|[e' [H [Hr' Hl]]]];
      rewrite H.
    + split; [discriminate|split; [discriminate|discriminate]].
    + split; [discriminate|split; [discriminate|]].
      intros app' Happ. inversion Happ; subst; cbn [engine error_shown].
      split; [reflexivity|]. intros e0 He0. inversion He0; subst.
      exists e'. auto.
  - rewrite animate_n_no_engine.
    split; [reflexivity|split; [discriminate|]].
    intros app' Happ. inversion Happ; subst. split; [reflexivity|].
    discriminate.
Qed.

Lemma animation_never_stops_witness :
  (forall e, engine (reset_simulation 100 (-100) no_engine) = Some e ->
     reachable e) /\
  (forall x app',
     animate_n 5 3 (reset_simulation 100 (-100) no_engine)
     <> AppRaise x app') /\
  (forall app',
     animate_n 5 3 (reset_simulation 100 (-100) no_engine) = AppRet app' ->
     error_shown app' = error_shown (reset_simulation 100 (-100) no_engine)
     /\
     forall e, engine (reset_simulation 100 (-100) no_engine) = Some e ->
       exists e', engine app' = Some e' /\ reachable e' /\ later e e').
Proof.
  assert (Hr : forall e,
    engine (reset_simulation 100 (-100) no_engine) = Some e -> reachable e).
  { intros e He. apply (reach_create 100 (-100)).
    vm_compute in He. vm_compute. congruence. }
  split; [exact Hr|].
  exact (proj2 (animation_never_stops 5 3
                  (reset_simulation 100 (-100) no_engine) Hr)).
Defined.

(** ** What is drawn *)

Lemma py_max_ge (a b : float) : a <= a -> a <= py_max a b.
Proof.
  intro Ha. unfold py_max. destruct (a <? b) eqn:E;
    [now apply ltb_leb|exact Ha].
Qed.

Lemma py_max_le (a b c : float) : a <= c -> b <= c -> py_max a b <= c.
Proof. intros Ha Hb. unfold py_max. now destruct (a <? b). Qed.

Lemma py_min_le (a b : float) : a <= a -> py_min a b <= a.
Proof.
  intro Ha. unfold py_min. destruct (b <? a) eqn:E;
    [now apply ltb_leb|exact Ha].
Qed.

(** X14.  The sizes [draw] computes, whatever [math.log10] returns (NaN
    and the infinities included) and whatever the mass: the side of the
    large block is never less than 80 and never more than 250; both
    rectangles stand on the ground line; and for an engine reachable
    from a construction the small block is drawn from height 350 to the
    ground with its right edge at [x2_draw + 50]. *)
Theorem drawn_sizes (log10 : float -> float) (e : PhysicsEngine) :
  (80 <= size1 log10 e /\ size1 log10 e <= 250) /\
  rect_y1 (large_rectangle log10 e) = 400 /\
  rect_y1 (small_rectangle e) = 400 /\
  (reachable e ->
   rect_y0 (small_rectangle e) = 350 /\
   rect_x1 (small_rectangle e) = rect_x0 (small_rectangle e) + 50).
Proof.
  split; [|split; [reflexivity|split; [reflexivity|]]].
  - unfold size1. split.
    + apply py_max_ge. reflexivity.
    + apply py_max_le; [reflexivity|]. apply py_min_le. reflexivity.
  - intro Hr. apply reachable_sound in Hr.
    destruct Hr as (_ & _ & _ & Hw2 & _).
    unfold small_rectangle; cbn [rect_y0 rect_x1 rect_x0].
    rewrite Hw2. split; reflexivity.
Qed.

Lemma drawn_sizes_witness :
  reachable fresh /\
  rect_y0 (small_rectangle fresh) = 350 /\
  rect_x1 (small_rectangle fresh) = rect_x0 (small_rectangle fresh) + 50.
Proof.
  assert (Hr : reachable fresh).
  { apply (reach_create 100 (-100)). reflexivity. }
  split; [exact Hr|].
  exact (proj2 (proj2 (proj2 (drawn_sizes (fun x => x) fresh))) Hr).
Defined.

(** ** The flag is never read *)

Lemma same_motion_refl (s : PhysicsEngine) : same_motion s s.
Proof. unfold same_motion. repeat split. Qed.

Lemma same_motion_flag (b : bool) (s : PhysicsEngine) :
  same_motion s (set_finished b s).
Proof. unfold same_motion. repeat split. Qed.

(** States with the same motion have the same event times. *)
Lemma same_motion_times (s s' : PhysicsEngine) :
  same_motion s s' ->
  wall_time s = wall_time s' /\ block_time s = block_time s' /\
  terminal s = terminal s'.
Proof.
  intros (E1 & E2 & E3 & E4 & E5 & E6 & E7 & E8 & E9).
  unfold wall_time, block_time, terminal.
  rewrite E3, E4, E6, E7, E8. repeat split.
Qed.

Lemma same_motion_moved (t : float) (s s' : PhysicsEngine) :
  same_motion s s' -> same_motion (moved t s) (moved t s').
Proof.
  intros (E1 & E2 & E3 & E4 & E5 & E6 & E7 & E8 & E9).
  unfold same_motion; simpl. rewrite E3, E4, E7, E8. repeat split; auto.
Qed.

Lemma same_motion_bounced (s s' : PhysicsEngine) :
  same_motion s s' -> same_motion (bounced s) (bounced s').
Proof.
  intros (E1 & E2 & E3 & E4 & E5 & E6 & E7 & E8 & E9).
  unfold same_motion; simpl. rewrite E8, E9. repeat split; auto.
Qed.

Lemma same_motion_collided (s s' : PhysicsEngine) :
  same_motion s s' -> same_motion (collided s) (collided s').
Proof.
  intros (E1 & E2 & E3 & E4 & E5 & E6 & E7 & E8 & E9).
  unfold same_motion; simpl. rewrite E1, E2, E7, E8, E9.
  repeat split; auto.
Qed.

Lemma loop_body_same (rem : float) (s s' : PhysicsEngine) :
  same_motion s s' -> same_outcome (loop_body rem s) (loop_body rem s').
Proof.
  intro H. rewrite !loop_body_run. unfold after_iteration.
  destruct (same_motion_times s s' H) as (<- & <- & _).
  assert (Em : m1 s + m2 s = m1 s' + m2 s').
  { destruct H as (E1 & E2 & _). now rewrite E1, E2. }
  rewrite <- Em.
  destruct (_ <=? rem).
  - destruct (_ <? _).
    + split; [reflexivity|].
      now apply same_motion_bounced, same_motion_moved.
    + destruct (_ =? 0); (split; [reflexivity|]).
      * now apply same_motion_moved.
      * now apply same_motion_collided, same_motion_moved.
  - split; [reflexivity|]. now apply same_motion_moved.
Qed.

Lemma while_loop_same (fuel : nat) :
  forall rem s s',
    same_motion s s' ->
    same_outcome (while_loop fuel rem s) (while_loop fuel rem s').
Proof.
  induction fuel as [|fuel IH]; intros rem s s' H;
    destruct (0 <? rem) eqn:E;
    try (rewrite !while_loop_exit by exact E; split; [reflexivity|exact H]).
  - rewrite !while_loop_out_of_fuel by exact E. exact I.
  - rewrite !while_loop_iter by exact E.
    pose proof (loop_body_same rem s s' H) as Hb.
    destruct (loop_body rem s) as [r s1|e s1|],
             (loop_body rem s') as [r' s1'|e' s1'|];
      simpl in Hb; try contradiction; try exact Hb.
    destruct Hb as [<- Hb]. specialize (IH (fst r) s1 s1' Hb).
    destruct (while_loop fuel (fst r) s1) as [l s2|e s2|],
             (while_loop fuel (fst r) s1') as [l' s2'|e' s2'|];
      simpl in IH; try contradiction; try exact IH.
    destruct IH as [<- IH]. split; [reflexivity|exact IH].
Qed.

Lemma same_motion_mark (s s' : PhysicsEngine) :
  same_motion s s' -> same_motion (mark_finished s) (mark_finished s').
Proof.
  intro H. destruct (same_motion_times s s' H) as (_ & _ & Ht).
  unfold mark_finished. rewrite <- Ht.
  destruct (terminal s); [|exact H].
  destruct H as (E1 & E2 & E3 & E4 & E5 & E6 & E7 & E8 & E9).
  unfold same_motion; simpl. repeat split; auto.
Qed.

(** X17.  [step] never reads [finished].  Whatever the flag is set to
    before a call, the call ends the same way: with the same fuel it
    returns having resolved the same events, or raises the same
    exception, and leaves the same masses, widths, positions, velocities
    and collision count.  In particular an engine that is [finished]
    keeps moving its blocks. *)
Theorem step_ignores_finished
  (b : bool) (fuel : nat) (dt : float) (s : PhysicsEngine) :
  same_outcome (step fuel dt s) (step fuel dt (set_finished b s)).
Proof.
  rewrite !step_run.
  pose proof (while_loop_same fuel dt s (set_finished b s)
                (same_motion_flag b s)) as H.
  destruct (while_loop fuel dt s) as [l a|e a|],
           (while_loop fuel dt (set_finished b s)) as [l' a'|e' a'|];
    simpl in H; try contradiction; try exact H.
  destruct H as [<- H]. split; [reflexivity|].
  now apply same_motion_mark.
Qed.

(** ** What an iteration resolves, and when *)

Lemma wall_chosen (s : PhysicsEngine) :
  wall_time s < block_time s -> v2 s < 0.
Proof.
  unfold wall_time at 1. destruct (v2 s <? 0); [reflexivity|].
  now rewrite ltb_infinity_false.
Qed.

Lemma block_chosen (rem : float) (s : PhysicsEngine) :
  py_min (wall_time s) (block_time s) <= rem ->
  (wall_time s <? block_time s) = false ->
  rem <> infinity -> v1 s < v2 s.
Proof.
  intros Hle Hlt Hr.
  destruct (v1 s <? v2 s) eqn:E; [reflexivity|exfalso].
  unfold block_time in *. rewrite E in *.
  unfold py_min in Hle. rewrite ltb_infinity_false in Hle.
  rewrite (not_below_infinity _ _ Hle Hlt) in Hle.
  rewrite (infinity_not_leb rem Hr) in Hle. discriminate.
Qed.

(** X6.  What an iteration of the loop resolves, and when.  A wall
    collision is resolved only while the small block moves toward the
    wall ([v2 < 0]); it happens after the computed [x2 / abs(v2)], which
    is within the remaining time, moves both blocks by that time, and
    reflects the small block exactly: the new [v2] is [-v2], without
    rounding, so the small block then moves away from the wall.  A
    block collision is resolved (for a [time_remaining] other than
    [float('inf')]) only while the large block closes in ([v1 < v2]),
    after a time within the remaining time. *)
Theorem events_under_guards
  (rem : float) (s : PhysicsEngine) (r t : float) (s' : PhysicsEngine) :
  (loop_body rem s = Ret (r, [WallHit t]) s' ->
   v2 s < 0 /\ t = x2 s / abs (v2 s) /\ t <= rem /\ r = rem - t /\
   v2 s' = - v2 s /\ 0 < v2 s' /\ v1 s' = v1 s /\
   x1 s' = x1 s + v1 s * t /\ x2 s' = x2 s + v2 s * t /\
   collisions s' = (collisions s + 1)%Z) /\
  (loop_body rem s = Ret (r, [BlockHit t]) s' ->
   rem <> infinity ->
   v1 s < v2 s /\ t <= rem /\ r = rem - t /\
   x1 s' = x1 s + v1 s * t /\ x2 s' = x2 s + v2 s * t /\
   collisions s' = (collisions s + 1)%Z).
Proof.
  rewrite loop_body_run. unfold after_iteration.
  destruct (py_min (wall_time s) (block_time s) <=? rem) eqn:Ele;
    [|split; discriminate].
  destruct (wall_time s <? block_time s) eqn:Elt.
  - split; [|discriminate]. intro H. injection H as <- <- <-.
    pose proof (wall_chosen s Elt) as Hv.
    assert (Et : py_min (wall_time s) (block_time s) = x2 s / abs (v2 s)).
    { unfold py_min. rewrite (ltb_asym _ _ Elt).
      unfold wall_time. now rewrite Hv. }
    rewrite Et in *. cbn [v1 v2 x1 x2 collisions bounced moved set_x1 set_x2
                         set_v2 set_collisions].
    rewrite mul_neg_one.
    repeat split; auto. now apply opp_positive.
  - destruct (m1 s + m2 s =? 0); split; try discriminate.
    intros H Hr. injection H as <- <- <-.
    split; [exact (block_chosen rem s Ele Elt Hr)|].
    repeat split; auto.
Qed.

Lemma events_under_guards_witness :
  (loop_body 1 at_wall =
   Ret (1 - 0 / 1, [WallHit (0 / 1)]) (bounced (moved (0 / 1) at_wall)) /\
   v2 at_wall < 0 /\
   v2 (bounced (moved (0 / 1) at_wall)) = - v2 at_wall /\
   0 < v2 (bounced (moved (0 / 1) at_wall))) /\
  (loop_body 3 tie_state =
   Ret (3 - 1, [BlockHit 1]) (collided (moved 1 tie_state)) /\
   3 <> infinity /\
   v1 tie_state < v2 tie_state /\ 1 <= 3 /\
   collisions (collided (moved 1 tie_state))
   = (collisions tie_state + 1)%Z).
Proof.
  assert (H : loop_body 1 at_wall =
              Ret (1 - 0 / 1, [WallHit (0 / 1)])
                  (bounced (moved (0 / 1) at_wall))) by reflexivity.
  assert (H' : loop_body 3 tie_state =
               Ret (3 - 1, [BlockHit 1]) (collided (moved 1 tie_state)))
    by reflexivity.
  assert (H3 : 3 <> infinity).
  { intro E. apply (f_equal Prim2SF) in E. discriminate. }
  split.
  - split; [exact H|].
    destruct (proj1 (events_under_guards 1 at_wall _ _ _) H)
      as (Hv & _ & _ & _ & Hn & Hp & _).
    split; [exact Hv|split; [exact Hn|exact Hp]].
  - split; [exact H'|split; [exact H3|]].
    destruct (proj2 (events_under_guards 3 tie_state _ _ _) H' H3)
      as (Hv & Hle & _ & _ & _ & Hc).
    split; [exact Hv|split; [exact Hle|exact Hc]].
Defined.

(** ** Wall collisions never follow each other *)

Lemma walls_apart_cons (e : event) (log : list event) :
  walls_apart log = true ->
  (is_wall e = true -> starts_without_wall log) ->
  walls_apart (e :: log) = true.
Proof.
  intros Hl Hs. destruct log as [|e2 rest]; [reflexivity|].
  change (walls_apart (e :: e2 :: rest))
    with (negb (is_wall e && is_wall e2) && walls_apart (e2 :: rest)).
  rewrite Hl. destruct (is_wall e) eqn:Ee; [|reflexivity].
  specialize (Hs eq_refl). simpl in Hs. now rewrite Hs.
Qed.

Lemma while_loop_walls_apart (fuel : nat) :
  forall rem s log s',
    while_loop fuel rem s = Ret log s' ->
    walls_apart log = true /\ (0 <= v2 s -> starts_without_wall log).
Proof.
  induction fuel as [|fuel IH]; intros rem s log s' H;
    destruct (0 <? rem) eqn:E;
    try (rewrite while_loop_exit in H by exact E;
         inversion H; subst; split; [reflexivity|intros _; exact I]).
  - rewrite while_loop_out_of_fuel in H by exact E. discriminate.
  - rewrite while_loop_iter in H by exact E.
    rewrite loop_body_run in H. unfold after_iteration in H.
    destruct (py_min (wall_time s) (block_time s) <=? rem) eqn:Ele.
    + destruct (wall_time s <? block_time s) eqn:Elt.
      * cbn [fst snd] in H.
        destruct (while_loop fuel _ _) as [rest s2|e s2|] eqn:Hl;
          try discriminate.
        inversion H; subst. apply IH in Hl. destruct Hl as [Hw Hs].
        pose proof (wall_chosen s Elt) as Hv.
        split.
        -- apply walls_apart_cons; [exact Hw|]. intros _. apply Hs.
           cbn [v2 bounced moved set_x1 set_x2 set_v2 set_collisions].
           rewrite mul_neg_one. apply ltb_leb, opp_positive, Hv.
        -- intro H0. rewrite (leb_not_ltb _ _ H0) in Hv. discriminate.
      * destruct (m1 s + m2 s =? 0); try discriminate.
        cbn [fst snd] in H.
        destruct (while_loop fuel _ _) as [rest s2|e s2|] eqn:Hl;
          try discriminate.
        inversion H; subst. apply IH in Hl. destruct Hl as [Hw _].
        split; [|intros _; reflexivity].
        apply walls_apart_cons; [exact Hw|discriminate].
    + cbn [fst snd] in H.
      rewrite while_loop_exit in H by reflexivity.
      inversion H; subst. split; [reflexivity|intros _; exact I].
Qed.

(** X9.  In the collisions one call of [step] resolves, no wall
    collision is directly followed by another wall collision, and the
    first collision is not a wall collision if the small block was not
    moving toward the wall at the start.  (Two block collisions can
    follow each other: see [resolve_block_collision_keeps_closing].) *)
Theorem step_walls_apart
  (fuel : nat) (dt : float) (s : PhysicsEngine) log (s' : PhysicsEngine) :
  step fuel dt s = Ret log s' ->
  walls_apart log = true /\ (0 <= v2 s -> starts_without_wall log).
Proof.
  rewrite step_run.
  destruct (while_loop fuel dt s) as [l s1|e s1|] eqn:Hl; try discriminate.
  intro H. inversion H; subst.
  exact (while_loop_walls_apart fuel dt s log s1 Hl).
Qed.

Lemma step_walls_apart_witness :
  step 5 10 equal_masses = Ret equal_masses_log equal_masses_final /\
  walls_apart equal_masses_log = true /\
  (0 <= v2 equal_masses -> starts_without_wall equal_masses_log).
Proof.
  assert (H : step 5 10 equal_masses =
              Ret equal_masses_log equal_masses_final) by reflexivity.
  split; [exact H|].
  exact (step_walls_apart 5 10 equal_masses _ _ H).
Defined.
